(** * lab_2/lab2.py: image manifest writer and iterator

    A shallow embedding of [src/lab_2/lab2.py] and of the parts of the Python
    runtime it calls ([str] methods, [posixpath], [os.walk], text-mode files
    and the [csv] module with its default "excel" dialect), followed by the
    properties of the program.

    Conventions.
    - A Python [str] is a [list ascii]: one [ascii] per character.  The
      values below 128 are the ASCII characters, among them every character
      the program inspects ('/', '.', ',', the double quote, CR, LF, NUL);
      the values from 128 on stand for the other characters of a run, which
      the program only copies and counts: characters a file name can hold,
      and the lone surrogates U+DC80 to U+DCFF that [os.walk] gives for the
      bytes of a file name that are not valid in the encoding.  Which of
      them the encoding of text files can encode is given with the file
      system; it can encode none of these surrogates.
    - A Python [int] is a [Z].
    - A call that may raise returns a [result]: [Ok v] or [Raise e].
    - The platform is POSIX: [os.path] is [posixpath], [os.linesep] is LF.
    - The library is embedded from its sources: [posixpath], [genericpath]
      and [os.walk] from their Python definitions, text files and [csv] from
      the C ones, each with the arguments the program passes or leaves to
      their defaults.
    - The process state the program depends on is passed explicitly: the
      current working directory [cwd], the directory tree below the download
      folder, and the files that can be opened.
    - A text file holds the characters written to it: what was encoded on
      writing is decoded to itself on reading.  Writing to a file that was
      opened and closing it do not fail, but for the encoding.
    - [main] is embedded from the value [parser.parse_args()] returns on;
      the parsing of the command line is [argparse]'s. *)

From Stdlib Require Import String.
From Stdlib Require Import Ascii ZArith Lia Bool List.
From Stdlib Require Import FunInd Recdef.
Import ListNotations.

(** ** Python values *)

Definition str := list ascii.

(** [lit "abc"] is the Python literal ['abc']. *)
Definition lit (x : String.string) : str := String.list_ascii_of_string x.
Arguments lit x%_string_scope.

Inductive exn : Type :=
| StopIteration
| IndexError
| ValueError
| FileNotFoundError
| OSError
| UnicodeEncodeError
| csv_Error.

Inductive result (A : Type) : Type :=
| Ok (v : A)
| Raise (e : exn).
Arguments Ok {A} v.
Arguments Raise {A} e.

Definition bind {A B : Type} (m : result A) (k : A -> result B) : result B :=
  match m with
  | Ok v => k v
  | Raise e => Raise e
  end.

Notation "x <- m ;; k" := (bind m (fun x => k))
  (at level 61, m at next level, right associativity).

(** ** [str] methods *)

Module Str.

Fixpoint eqb (a b : str) : bool :=
  match a, b with
  | [], [] => true
  | x :: a', y :: b' => Ascii.eqb x y && eqb a' b'
  | _, _ => false
  end.

(** [s.startswith(p)] *)
Fixpoint startswith (s p : str) {struct p} : bool :=
  match p, s with
  | [], _ => true
  | y :: p', x :: s' => Ascii.eqb x y && startswith s' p'
  | _ :: _, [] => false
  end.

(** [s.endswith(p)] *)
Definition endswith (s p : str) : bool := startswith (rev s) (rev p).

(** [s.endswith((p1, ..., pn))]: true when some [pi] is a suffix. *)
Definition endswith_any (s : str) (ps : list str) : bool :=
  existsb (endswith s) ps.

(** [s.split(sep)] for a one-character separator: never the empty list. *)
Fixpoint split (sep : ascii) (s : str) : list str :=
  match s with
  | [] => [[]]
  | c :: s' =>
      if Ascii.eqb c sep then [] :: split sep s'
      else match split sep s' with
           | [] => [[c]]
           | w :: ws => (c :: w) :: ws
           end
  end.

(** [sep.join(parts)] *)
Fixpoint join (sep : str) (parts : list str) : str :=
  match parts with
  | [] => []
  | [p] => p
  | p :: ps => p ++ sep ++ join sep ps
  end.

(** [s.lstrip(c)] and [s.rstrip(c)] for a one-character set. *)
Fixpoint lstrip (c : ascii) (s : str) : str :=
  match s with
  | x :: s' => if Ascii.eqb x c then lstrip c s' else s
  | [] => []
  end.

Definition rstrip (c : ascii) (s : str) : str := rev (lstrip c (rev s)).

(** [s.rfind(c)]: the highest index of [c] in [s], or -1. *)
Fixpoint rfind_from (c : ascii) (s : str) (i last : Z) : Z :=
  match s with
  | [] => last
  | x :: s' => rfind_from c s' (i + 1)%Z (if Ascii.eqb x c then i else last)
  end.

Definition rfind (c : ascii) (s : str) : Z := rfind_from c s 0%Z (-1)%Z.

(** [s[:i]] for [i >= 0]. *)
Definition slice_to (s : str) (i : Z) : str := firstn (Z.to_nat i) s.

(** [c * n] *)
Definition times (c : ascii) (n : nat) : str := repeat c n.

(** [c in s] *)
Definition contains (c : ascii) (s : str) : bool := existsb (Ascii.eqb c) s.

End Str.

(** ** [posixpath] *)

Module posixpath.

Definition sep : ascii := "/"%char.
Definition curdir : str := lit ".".
Definition pardir : str := lit "..".

Definition isabs (s : str) : bool := Str.startswith s [sep].

(** One iteration of the loop of [join(a, *p)]. *)
Definition join_step (path b : str) : str :=
  if Str.startswith b [sep] then b
  else if match path with [] => true | _ => Str.endswith path [sep] end
       then path ++ b
       else path ++ [sep] ++ b.

Definition join (a : str) (p : list str) : str := fold_left join_step p a.

(** [dirname(p)] *)
Definition dirname (p : str) : str :=
  let i := (Str.rfind sep p + 1)%Z in
  let head := Str.slice_to p i in
  if negb (Str.eqb head []) && negb (Str.eqb head (Str.times sep (length head)))
  then Str.rstrip sep head
  else head.

(** The body of the [for comp in comps] loop of [normpath]. *)
Definition normpath_step (initial_slashes : Z) (new_comps : list str)
    (comp : str) : list str :=
  if Str.eqb comp [] || Str.eqb comp curdir then new_comps
  else if negb (Str.eqb comp pardir)
          || ((initial_slashes =? 0)%Z && match new_comps with [] => true | _ => false end)
          || (match new_comps with [] => false | _ => true end
              && Str.eqb (last new_comps []) pardir)
  then new_comps ++ [comp]
  else match new_comps with
       | [] => new_comps
       | _ => removelast new_comps
       end.

Definition initial_slashes_of (path : str) : Z :=
  if Str.startswith path [sep] then
    if Str.startswith path [sep; sep] && negb (Str.startswith path [sep; sep; sep])
    then 2%Z else 1%Z
  else 0%Z.

Definition or_dot (path : str) : str :=
  match path with [] => curdir | _ => path end.

(** [normpath(path)] *)
Definition normpath (path : str) : str :=
  match path with
  | [] => curdir
  | _ =>
      let initial_slashes := initial_slashes_of path in
      let comps := Str.split sep path in
      let new_comps := fold_left (normpath_step initial_slashes) comps [] in
      let path := Str.join [sep] new_comps in
      let path :=
        if (initial_slashes =? 0)%Z then path
        else Str.times sep (Z.to_nat initial_slashes) ++ path in
      or_dot path
  end.

(** [abspath(path)], with [os.getcwd()] passed as [cwd]. *)
Definition abspath (cwd path : str) : str :=
  let path := if isabs path then path else join cwd [path] in
  normpath path.

(** [genericpath.commonprefix([a, b])] on two lists of components:
    [s1 = min(m)], [s2 = max(m)] in Python's lexicographic list order,
    then the scan of [s1] against [s2]. *)
Fixpoint str_ltb (a b : str) : bool :=
  match a, b with
  | [], [] => false
  | [], _ :: _ => true
  | _ :: _, [] => false
  | x :: a', y :: b' =>
      if Ascii.eqb x y then str_ltb a' b'
      else (nat_of_ascii x <? nat_of_ascii y)%nat
  end.

Fixpoint list_ltb (a b : list str) : bool :=
  match a, b with
  | [], [] => false
  | [], _ :: _ => true
  | _ :: _, [] => false
  | x :: a', y :: b' =>
      if Str.eqb x y then list_ltb a' b' else str_ltb x y
  end.

(** [min(m)] and [max(m)] of a two-element list keep the first of equal
    elements. *)
Definition min2 (a b : list str) : list str := if list_ltb b a then b else a.
Definition max2 (a b : list str) : list str := if list_ltb a b then b else a.

(** The scan: the elements of [s1] up to the first index at which [s2]
    differs.  When [s2] is shorter Python's [s2[i]] raises; the shape of the
    loop is kept and the raise is reported as [None]. *)
Fixpoint commonprefix_scan (s1 s2 : list str) : option (list str) :=
  match s1 with
  | [] => Some []
  | c :: s1' =>
      match s2 with
      | [] => None
      | d :: s2' =>
          if negb (Str.eqb c d) then Some []
          else option_map (cons c) (commonprefix_scan s1' s2')
      end
  end.

Definition commonprefix (a b : list str) : option (list str) :=
  commonprefix_scan (min2 a b) (max2 a b).

Definition nonempty_comps (s : str) : list str :=
  filter (fun x => negb (Str.eqb x [])) (Str.split sep s).

(** [relpath(path, start)] *)
Definition relpath (cwd path start : str) : result str :=
  match path with
  | [] => Raise ValueError
  | _ =>
      let start_list := nonempty_comps (abspath cwd start) in
      let path_list := nonempty_comps (abspath cwd path) in
      match commonprefix start_list path_list with
      | None => Raise IndexError
      | Some pre =>
          let i := length pre in
          let rel_list := repeat pardir (length start_list - i) ++ skipn i path_list in
          match rel_list with
          | [] => Ok curdir
          | a :: p => Ok (join a p)
          end
      end
  end.

End posixpath.

(** ** Files

    A path names a regular file with its text, a path that exists but cannot
    be opened, or nothing.  [creatable] tells whether [open(p, 'w')] may
    create a file at a path that names nothing (its directory exists and is
    writable).  [encodable] tells which characters beyond ASCII the encoding
    of text files (the locale's, as no [encoding] is given to [open]) can
    encode; it encodes every ASCII character.  Paths are compared as
    strings. *)

Inductive node : Type :=
| Regular (content : str)
| NoAccess.

Record filesystem : Type := {
  lookup : str -> option node;
  creatable : str -> bool;
  encodable : ascii -> bool
}.

Module io.

Definition CR : ascii := "013"%char.
Definition LF : ascii := "010"%char.
Definition NUL : ascii := "000"%char.

(** [open(p, mode='r')]: the text of the file.  A path that holds a NUL
    character is refused with [ValueError] before the file is looked for. *)
Definition open_r (fs : filesystem) (p : str) : result str :=
  if Str.contains NUL p then Raise ValueError
  else
    match lookup fs p with
    | None => Raise FileNotFoundError
    | Some NoAccess => Raise OSError
    | Some (Regular content) => Ok content
    end.

(** [open(p, mode='w', ...)]: succeeds when the file can be created or
    truncated. *)
Definition open_w (fs : filesystem) (p : str) : result unit :=
  if Str.contains NUL p then Raise ValueError
  else
    match lookup fs p with
    | None => if creatable fs p then Ok tt else Raise FileNotFoundError
    | Some NoAccess => Raise OSError
    | Some (Regular _) => Ok tt
    end.

(** The characters the encoding of text files can encode. *)
Definition can_encode (fs : filesystem) (c : ascii) : bool :=
  (nat_of_ascii c <? 128)%nat || encodable fs c.

(** [f.write(text)] on a file opened for writing that holds [f]: the text
    is encoded as a whole, and nothing of it is written when a character
    cannot be encoded. *)
Definition write (fs : filesystem) (f text : str) : result str :=
  if forallb (can_encode fs) text then Ok (f ++ text)
  else Raise UnicodeEncodeError.

(** The file system after the file opened for writing is closed with text
    [content]. *)
Definition close_w (fs : filesystem) (p content : str) : filesystem :=
  {| lookup := fun q => if Str.eqb q p then Some (Regular content) else lookup fs q;
     creatable := creatable fs;
     encodable := encodable fs |}.

(** Reading with [newline=None] (universal newlines): CR LF and a lone CR
    both become LF. *)
Fixpoint translate_newlines (s : str) : str :=
  match s with
  | [] => []
  | c :: s' =>
      if Ascii.eqb c CR then
        match s' with
        | d :: _ => if Ascii.eqb d LF then translate_newlines s'
                    else LF :: translate_newlines s'
        | [] => [LF]
        end
      else c :: translate_newlines s'
  end.

(** Iterating over a text file: the lines, each with its LF but possibly
    the last. *)
Fixpoint readlines (s : str) : list str :=
  match s with
  | [] => []
  | c :: s' =>
      if Ascii.eqb c LF then [c] :: readlines s'
      else match readlines s' with
           | [] => [[c]]
           | l :: ls => (c :: l) :: ls
           end
  end.

(** The iterator a file opened with [mode='r'] gives. *)
Definition lines_r (content : str) : list str :=
  readlines (translate_newlines content).

End io.

(** ** [csv], dialect "excel"

    delimiter comma, quotechar the double quote, doublequote, no escapechar,
    no skipinitialspace, lineterminator CR LF, QUOTE_MINIMAL, not strict. *)

Module csv.

Definition delimiter : ascii := ","%char.
Definition quotechar : ascii := "034"%char.
Definition lineterminator : str := [io.CR; io.LF].
Definition field_limit : Z := 131072.

(** *** Writer *)

(** The characters for which [join_append_data] sets [quoted]. *)
Definition special (c : ascii) : bool :=
  Ascii.eqb c delimiter || Ascii.eqb c quotechar || Str.contains c lineterminator.

(** The copy loop of [join_append_data]: a quotechar is doubled. *)
Fixpoint copy_field (field : str) : str :=
  match field with
  | [] => []
  | c :: f =>
      if Ascii.eqb c quotechar then quotechar :: c :: copy_field f
      else c :: copy_field f
  end.

(** [join_append]: the record text after one more field. *)
Definition join_append (rec : str) (num_fields : nat) (field : str) : str :=
  let quoted := existsb special field in
  rec ++ (match num_fields with O => [] | S _ => [delimiter] end)
      ++ (if quoted then [quotechar] else [])
      ++ copy_field field
      ++ (if quoted then [quotechar] else []).

Fixpoint join_fields (rec : str) (num_fields : nat) (row : list str) : str :=
  match row with
  | [] => rec
  | field :: row' => join_fields (join_append rec num_fields field) (S num_fields) row'
  end.

(** [writer.writerow(row)]: the text written.  A row of one empty field is
    written as two quotechars. *)
Definition writerow (row : list str) : str :=
  let rec := join_fields [] O row in
  let rec :=
    match row, rec with
    | _ :: _, [] => [quotechar; quotechar]
    | _, _ => rec
    end in
  rec ++ lineterminator.

(** *** Reader *)

Inductive ParserState : Type :=
| START_RECORD
| START_FIELD
| IN_FIELD
| IN_QUOTED_FIELD
| QUOTE_IN_QUOTED_FIELD
| EAT_CRNL.
(* ESCAPED_CHAR, AFTER_ESCAPED_CRNL and ESCAPE_IN_QUOTED_FIELD are entered
   only on the escapechar, which this dialect does not have. *)

(** The parser fields of [ReaderObj].  [field] holds the characters of the
    current field, the most recent first; [field_len] is their number. *)
Record ReaderObj : Type := {
  fields : list str;
  state : ParserState;
  field : str;
  field_len : Z
}.

Definition set_state (self : ReaderObj) (s : ParserState) : ReaderObj :=
  {| fields := fields self; state := s; field := field self;
     field_len := field_len self |}.

Definition parse_reset : ReaderObj :=
  {| fields := []; state := START_RECORD; field := []; field_len := 0 |}.

Definition parse_save_field (self : ReaderObj) : ReaderObj :=
  {| fields := fields self ++ [rev (field self)]; state := state self;
     field := []; field_len := 0 |}.

Definition parse_add_char (self : ReaderObj) (c : ascii) : result ReaderObj :=
  if (field_limit <=? field_len self)%Z then Raise csv_Error
  else Ok {| fields := fields self; state := state self;
             field := c :: field self; field_len := (field_len self + 1)%Z |}.

(** What [parse_process_char] is given: a character of the line, or the
    end-of-line mark sent after each line. *)
Inductive input : Type :=
| Ch (c : ascii)
| EOL.

Definition is_newline (c : ascii) : bool :=
  Ascii.eqb c io.LF || Ascii.eqb c io.CR.

(** [case START_FIELD] *)
Definition in_START_FIELD (self : ReaderObj) (c : input) : result ReaderObj :=
  match c with
  | EOL => Ok (set_state (parse_save_field self) START_RECORD)
  | Ch ch =>
      if is_newline ch then Ok (set_state (parse_save_field self) EAT_CRNL)
      else if Ascii.eqb ch quotechar then Ok (set_state self IN_QUOTED_FIELD)
      else if Ascii.eqb ch delimiter then Ok (parse_save_field self)
      else self' <- parse_add_char self ch ;; Ok (set_state self' IN_FIELD)
  end.

Definition parse_process_char (self : ReaderObj) (c : input) : result ReaderObj :=
  match state self with
  | START_RECORD =>
      match c with
      | EOL => Ok self
      | Ch ch =>
          if is_newline ch then Ok (set_state self EAT_CRNL)
          else in_START_FIELD (set_state self START_FIELD) c
      end
  | START_FIELD => in_START_FIELD self c
  | IN_FIELD =>
      match c with
      | EOL => Ok (set_state (parse_save_field self) START_RECORD)
      | Ch ch =>
          if is_newline ch then Ok (set_state (parse_save_field self) EAT_CRNL)
          else if Ascii.eqb ch delimiter
               then Ok (set_state (parse_save_field self) START_FIELD)
          else parse_add_char self ch
      end
  | IN_QUOTED_FIELD =>
      match c with
      | EOL => Ok self
      | Ch ch =>
          if Ascii.eqb ch quotechar then Ok (set_state self QUOTE_IN_QUOTED_FIELD)
          else parse_add_char self ch
      end
  | QUOTE_IN_QUOTED_FIELD =>
      match c with
      | EOL => Ok (set_state (parse_save_field self) START_RECORD)
      | Ch ch =>
          if Ascii.eqb ch quotechar
          then self' <- parse_add_char self ch ;; Ok (set_state self' IN_QUOTED_FIELD)
          else if Ascii.eqb ch delimiter
               then Ok (set_state (parse_save_field self) START_FIELD)
          else if is_newline ch
               then Ok (set_state (parse_save_field self) EAT_CRNL)
          else self' <- parse_add_char self ch ;; Ok (set_state self' IN_FIELD)
      end
  | EAT_CRNL =>
      match c with
      | EOL => Ok (set_state self START_RECORD)
      | Ch ch => if is_newline ch then Ok self else Raise csv_Error
      end
  end.

(** The [while (linelen--)] loop over the characters of one line. *)
Fixpoint process_line (self : ReaderObj) (line : str) : result ReaderObj :=
  match line with
  | [] => Ok self
  | c :: line' =>
      self' <- parse_process_char self (Ch c) ;; process_line self' line'
  end.

Definition pending (self : ReaderObj) : bool :=
  negb (field_len self =? 0)%Z
  || match state self with IN_QUOTED_FIELD => true | _ => false end.

(** The [do ... while (state != START_RECORD)] loop of [Reader_iternext]
    over the lines still to be read: the row ([None] at the end of the
    input) and the lines left. *)
Fixpoint Reader_loop (self : ReaderObj) (lines : list str)
  : result (option (list str) * list str) :=
  match lines with
  | [] =>
      if pending self then Ok (Some (fields (parse_save_field self)), [])
      else Ok (None, [])
  | line :: rest =>
      self1 <- process_line self line ;;
      self2 <- parse_process_char self1 EOL ;;
      match state self2 with
      | START_RECORD => Ok (Some (fields self2), rest)
      | _ => Reader_loop self2 rest
      end
  end.

(** [next(reader)] as a function of the lines the file still has. *)
Definition Reader_iternext (lines : list str)
  : result (option (list str) * list str) :=
  Reader_loop parse_reset lines.

End csv.

(** ** [os.walk]

    What [os.scandir] finds below the download folder: an entry is a
    non-directory (regular file, link to a file, ...), a directory with its
    entries in scan order, or a symbolic link to a directory. *)

#[warnings="-register-all"]
Inductive entry : Type :=
| File
| DirLink
| Dir (children : list (str * entry)).

Module os.

Definition linesep : str := [io.LF].

Definition is_dir (e : entry) : bool :=
  match e with File => false | _ => true end.

(** The names [_walk] puts in [dirs] and in [nondirs]. *)
Definition dirs (children : list (str * entry)) : list str :=
  map fst (filter (fun ne => is_dir (snd ne)) children).

Definition nondirs (children : list (str * entry)) : list str :=
  map fst (filter (fun ne => negb (is_dir (snd ne))) children).

(** [_walk(top, topdown=True, onerror=None, followlinks=False)] with [e]
    what [top] names: the triples it yields, in order.  [scandir] of a
    non-directory raises [OSError], which [_walk] swallows; a link to a
    directory is listed in [dirs] and not walked into. *)
Fixpoint _walk (top : str) (e : entry) : list (str * list str * list str) :=
  match e with
  | Dir children =>
      (top, dirs children, nondirs children)
      :: (fix into (l : list (str * entry)) : list (str * list str * list str) :=
            match l with
            | [] => []
            | (dirname, sub) :: l' =>
                match sub with
                | Dir _ => _walk (posixpath.join top [dirname]) sub ++ into l'
                | _ => into l'
                end
            end) children
  | _ => []
  end.

(** [os.walk(top)] for a directory [top] with entries [children]. *)
Definition walk (top : str) (children : list (str * entry))
  : list (str * list str * list str) :=
  _walk top (Dir children).

End os.

(** ** Python lists *)

(** [l[i]] *)
Definition getitem {A : Type} (l : list A) (i : Z) : result A :=
  let n := Z.of_nat (length l) in
  let j := if (i <? 0)%Z then (i + n)%Z else i in
  if ((j <? 0) || (n <=? j))%Z then Raise IndexError
  else match nth_error l (Z.to_nat j) with
       | Some x => Ok x
       | None => Raise IndexError
       end.

(** ** The program *)

Definition image_suffixes : list str := [lit ".jpg"; lit ".jpeg"; lit ".png"].

(** [download_images(keyword, download_folder, num_images)].  The crawler is
    outside the program: [crawl download_folder keyword num_images] is what
    it makes of the entries of the download folder. *)
Definition download_images
    (crawl : str -> str -> Z -> list (str * entry) -> list (str * entry))
    (folder : list (str * entry))
    (keyword download_folder : str) (num_images : Z) : list str :=
  let folder := crawl download_folder keyword num_images folder in
  flat_map
    (fun t : str * list str * list str =>
       let '(dirname, _, filenames) := t in
       map (fun filename => posixpath.join dirname [filename])
           (filter (fun filename => Str.endswith_any filename image_suffixes)
                   filenames))
    (os.walk download_folder folder).

Definition manifest_header : list str := [lit "absolute_path"; lit "relative_path"].

(** The [for image_path in image_paths] loop of [save_annotations]: [f] is
    the text written so far; the result is the text at the end of the loop
    and how the loop ended.  [writer.writerow] hands the text of the row to
    [f.write]. *)
Fixpoint write_rows (cwd : str) (fs : filesystem) (annotation_file : str)
    (image_paths : list str) (f : str) : str * result unit :=
  match image_paths with
  | [] => (f, Ok tt)
  | image_path :: image_paths' =>
      let absolute_path := posixpath.abspath cwd image_path in
      match posixpath.relpath cwd image_path (posixpath.dirname annotation_file) with
      | Raise e => (f, Raise e)
      | Ok relative_path =>
          match io.write fs f (csv.writerow [absolute_path; relative_path]) with
          | Raise e => (f, Raise e)
          | Ok f' => write_rows cwd fs annotation_file image_paths' f'
          end
      end
  end.

(** [save_annotations(image_paths, annotation_file)]: the file system after
    the call and how the call ended.  The file is opened with [newline='']:
    the text is stored as written; it is opened with no [encoding]: a row
    with a character the locale's encoding cannot encode makes [writerow]
    raise [UnicodeEncodeError]; the [with] block closes the file on every
    path, with what was written before. *)
Definition save_annotations (cwd : str) (fs : filesystem)
    (image_paths : list str) (annotation_file : str) : filesystem * result unit :=
  match io.open_w fs annotation_file with
  | Raise e => (fs, Raise e)
  | Ok _ =>
      match io.write fs [] (csv.writerow manifest_header) with
      | Raise e => (io.close_w fs annotation_file [], Raise e)
      | Ok f =>
          let '(f, r) := write_rows cwd fs annotation_file image_paths f in
          (io.close_w fs annotation_file f, r)
      end
  end.

(** *** [ImageIterator] *)

(** [[row[0] for row in reader]] over the lines the file still has. *)
Function column0 (lines : list str) {measure length lines} : result (list str) :=
  match csv.Reader_iternext lines with
  | Raise e => Raise e
  | Ok (None, _) => Ok []
  | Ok (Some row, rest) =>
      match getitem row 0 with
      | Raise e => Raise e
      | Ok x =>
          match column0 rest with
          | Raise e => Raise e
          | Ok xs => Ok (x :: xs)
          end
      end
  end.
Proof.
  intros lines p o rest row Ho Hp Hnext x Hx. subst.
  assert (Hloop : forall ls self, csv.Reader_loop self ls = Ok (Some row, rest) ->
            (length rest <= length ls)%nat /\
            (ls <> [] -> (length rest < length ls)%nat)).
  { induction ls as [|l ls IH]; intros self H; simpl in H.
    - destruct (csv.pending self); inversion H; subst; split;
        [reflexivity | congruence].
    - destruct (csv.process_line self l) as [self1|]; simpl in H; [|discriminate].
      destruct (csv.parse_process_char self1 csv.EOL) as [self2|];
        simpl in H; [|discriminate].
      assert (Hrec : csv.Reader_loop self2 ls = Ok (Some row, rest) ->
                     (length rest < S (length ls))%nat).
      { intros H'. apply IH in H'. lia. }
      simpl. destruct (csv.state self2);
        try (specialize (Hrec H); split; intros; lia).
      inversion H; subst. split; intros; lia. }
  destruct lines as [|l ls]; [discriminate Hnext|].
  apply (Hloop (l :: ls) csv.parse_reset Hnext). discriminate.
Defined.

Module ImageIterator.

Record t : Type := {
  annotation_file : str;
  image_paths : list str;
  current_index : Z
}.

(** The [with] block of [load_annotations]: the list its last statement
    assigns to [self.image_paths]. *)
Definition read_column (fs : filesystem) (annotation_file : str)
  : result (list str) :=
  content <- io.open_r fs annotation_file ;;
  let f := io.lines_r content in
  header <- csv.Reader_iternext f ;;
  match header with
  | (None, _) => Raise StopIteration
  | (Some _, f) => column0 f
  end.

(** [self.load_annotations()]: how the call ends, and the object after.
    The list read replaces [self.image_paths]; [self.current_index] is left
    as it is.  When the call raises nothing has been assigned. *)
Definition load_annotations (fs : filesystem) (self : t) : result unit * t :=
  match read_column fs (annotation_file self) with
  | Raise e => (Raise e, self)
  | Ok paths =>
      (Ok tt,
       {| annotation_file := annotation_file self;
          image_paths := paths;
          current_index := current_index self |})
  end.

(** [ImageIterator(annotation_file)]: the three assignments, then
    [self.load_annotations()]; an exception leaves the constructor and no
    object is returned. *)
Definition __init__ (fs : filesystem) (annotation_file : str) : result t :=
  let self := {| annotation_file := annotation_file;
                 image_paths := [];
                 current_index := 0 |} in
  match load_annotations fs self with
  | (Raise e, _) => Raise e
  | (Ok _, self) => Ok self
  end.

Definition __iter__ (self : t) : t := self.

(** [__next__]: what the call returns or raises, and the object after. *)
Definition __next__ (self : t) : result str * t :=
  if (current_index self <? Z.of_nat (length (image_paths self)))%Z then
    match getitem (image_paths self) (current_index self) with
    | Raise e => (Raise e, self)
    | Ok image_path =>
        (Ok image_path,
         {| annotation_file := annotation_file self;
            image_paths := image_paths self;
            current_index := (current_index self + 1)%Z |})
    end
  else (Raise StopIteration, self).

(** [n] calls of [next]: the results in order and the object after. *)
Fixpoint nexts (n : nat) (self : t) : list (result str) * t :=
  match n with
  | O => ([], self)
  | S n' =>
      let '(r, self') := __next__ self in
      let '(rs, self'') := nexts n' self' in
      (r :: rs, self'')
  end.

(** [for image_path in self: ...]: after [iter(self)], [next] is called
    until it raises.  The result is the values the body of the loop is run
    on, the object after the loop and how the loop ended ([StopIteration]
    ends it normally, any other exception leaves it). *)
Function for_next (self : t)
    {measure (fun s => Z.to_nat (Z.of_nat (length (image_paths s)) - current_index s)) self}
  : list str * (t * result unit) :=
  match __next__ self with
  | (Ok image_path, self') =>
      match for_next self' with
      | (seen, final) => (image_path :: seen, final)
      end
  | (Raise e, self') =>
      ([], (self', match e with StopIteration => Ok tt | _ => Raise e end))
  end.
Proof.
  intros self r self' image_path Hr Hnext. subst.
  unfold __next__ in Hnext.
  destruct (current_index self <? Z.of_nat (length (image_paths self)))%Z eqn:Hlt;
    [|discriminate].
  destruct (getitem (image_paths self) (current_index self)); [|discriminate].
  inversion Hnext; subst; simpl. apply Z.ltb_lt in Hlt. lia.
Defined.

Definition for_loop (self : t) : list str * (t * result unit) :=
  for_next (__iter__ self).

End ImageIterator.

(** *** [main] *)

Module argparse.


End argparse.




(** * The vocabulary of the properties

    The definitions the statements and their proofs are written with:
    none of them is part of the program. *)

Import posixpath csv ImageIterator.

(** The object [self] with its index moved to [i]. *)
Definition at_index (self : t) (i : Z) : t :=
  {| annotation_file := annotation_file self;
     image_paths := image_paths self;
     current_index := i |}.

(** [len(self.image_paths)] *)
Definition len (self : t) : Z := Z.of_nat (length (image_paths self)).

(** The invariant of the class. *)
Definition index_in_range (self : t) : Prop :=
  (0 <= current_index self <= len self)%Z.

(** A file system with nothing in it where any file can be created, and one
    holding a single file. *)
Definition empty_fs : filesystem :=
  {| lookup := fun _ => None; creatable := fun _ => true;
     encodable := fun _ => true |}.

Definition one_file (p content : str) : filesystem := io.close_w empty_fs p content.

(** An iterator with two paths, one of them consumed. *)
Definition two_paths_one_read : ImageIterator.t :=
  {| annotation_file := lit "manifest.csv";
     image_paths := [lit "/w/a.jpg"; lit "/w/d.png"];
     current_index := 1 |}.

(** The same iterator with both paths consumed. *)
Definition two_paths_both_read : ImageIterator.t :=
  {| annotation_file := lit "manifest.csv";
     image_paths := [lit "/w/a.jpg"; lit "/w/d.png"];
     current_index := 2 |}.

(** [file_at top children dirpath name]: below the directory [top] with
    entries [children], the directory reached as [dirpath] holds the
    non-directory [name].  Only directories are entered, at any depth. *)
Inductive file_at : str -> list (str * entry) -> str -> str -> Prop :=
| file_here (top : str) (children : list (str * entry)) (name : str) :
    In (name, File) children ->
    file_at top children top name
| file_below (top : str) (children : list (str * entry)) (dirname : str)
    (sub : list (str * entry)) (dirpath name : str) :
    In (dirname, Dir sub) children ->
    file_at (posixpath.join top [dirname]) sub dirpath name ->
    file_at top children dirpath name.

(** The directory of the example of the specification. *)
Definition example_folder : list (str * entry) :=
  [(lit "a.jpg", File); (lit "b.txt", File); (lit "c.PNG", File); (lit "d.png", File)].

(** A crawler that downloads nothing. *)
Definition no_crawl (root keyword : str) (num : Z) (folder : list (str * entry))
  : list (str * entry) := folder.

(** What [_walk] yields for one entry of [top]. *)
Definition walk_into (top : str) (ne : str * entry) : list (str * list str * list str) :=
  match snd ne with
  | Dir _ => os._walk (posixpath.join top [fst ne]) (snd ne)
  | _ => []
  end.


(** The header line as [save_annotations] writes it. *)
Definition standard_header_line : str :=
  lit "absolute_path,relative_path" ++ csv.lineterminator.


(** The text [join_append] adds for one field, without the delimiter. *)
Definition field_text (x : str) : str :=
  if existsb special x then [quotechar] ++ copy_field x ++ [quotechar] else x.

(** A reader object whose [field_len] is the length of its buffer. *)
Definition buffered (fs : list str) (st : ParserState) (buf : str) : ReaderObj :=
  {| fields := fs; state := st; field := buf;
     field_len := Z.of_nat (length buf) |}.

(** The parser has read the whole of the field [x] after the fields [fs]. *)
Definition field_done (self : ReaderObj) (fs : list str) (x : str) : Prop :=
  self = buffered fs QUOTE_IN_QUOTED_FIELD (rev x) \/
  self = buffered fs IN_FIELD (rev x) \/
  (x = [] /\ self = buffered fs START_FIELD []).

(** A field the reader accepts: no longer than its field limit. *)
Definition within_limit (x : str) : Prop :=
  (Z.of_nat (length x) <= field_limit)%Z.

(** What [save_annotations] writes for the path [p]: its two fields. *)
Definition written_row (cwd annotation_file p : str) (row : str * str) : Prop :=
  fst row = posixpath.abspath cwd p /\
  posixpath.relpath cwd p (posixpath.dirname annotation_file) = Ok (snd row).

(** The text [writerow] writes for a row. *)
Definition row_text (row : str * str) : str := writerow [fst row; snd row].

(** A text the encoding of the files can encode. *)
Definition encodes (fs : filesystem) (x : str) : Prop :=
  forallb (io.can_encode fs) x = true.

(** A path [save_annotations] writes a row for: it is not empty and its
    absolute path can be encoded. *)
Definition writable (fs : filesystem) (cwd p : str) : Prop :=
  p <> [] /\ encodes fs (posixpath.abspath cwd p).

(** A path that is not empty and whose absolute path cannot be encoded. *)
Definition unencodable (fs : filesystem) (cwd p : str) : Prop :=
  p <> [] /\ forallb (io.can_encode fs) (posixpath.abspath cwd p) = false.

(** A file system with nothing in it whose encoding is ASCII, and a name
    with a character beyond ASCII. *)
Definition ascii_fs : filesystem :=
  {| lookup := fun _ => None; creatable := fun _ => true;
     encodable := fun _ => false |}.

Definition name_beyond_ascii : str := lit "b" ++ ["255"%char] ++ lit ".png".

(** A text without carriage return. *)
Definition no_CR (x : str) : Prop := Str.contains io.CR x = false.

(** A row the reader gives back as written. *)
Definition readable (row : str * str) : Prop :=
  no_CR (fst row) /\ no_CR (snd row) /\
  within_limit (fst row) /\ within_limit (snd row).

(** A path whose row the reader can take back: its absolute path holds no
    carriage return, and neither written path is longer than the reader's
    field limit. *)
Definition round_trips (cwd annotation_file p : str) : Prop :=
  no_CR (posixpath.abspath cwd p) /\
  within_limit (posixpath.abspath cwd p) /\
  forall rel,
    posixpath.relpath cwd p (posixpath.dirname annotation_file) = Ok rel ->
    within_limit rel.

(** Two paths, the second with a comma in its name. *)
Definition sample_paths : list str := [lit "imgs/a.jpg"; lit "imgs/b,c.png"].

(** A name of 131073 characters. *)
Definition long_name : str := repeat "a"%char (N.to_nat 131073).




(** The longest common prefix of two lists of components. *)
Fixpoint lcp (a b : list str) : list str :=
  match a, b with
  | x :: a', y :: b' => if Str.eqb x y then x :: lcp a' b' else []
  | _, _ => []
  end.

(** The components [relpath] joins. *)
Definition rel_list (cwd p start : str) : list str :=
  let start_list := nonempty_comps (abspath cwd start) in
  let path_list := nonempty_comps (abspath cwd p) in
  let i := length (lcp start_list path_list) in
  repeat pardir (length start_list - i) ++ skipn i path_list.

(** What [relpath] returns for the components [l]. *)
Definition rel_text (l : list str) : str :=
  match l with
  | [] => curdir
  | a :: p => join a p
  end.

(** A data line in the words of the specification: the two fields, each
    quoted only if its characters require it, joined by a comma. *)
Definition manifest_line (row : str * str) : str :=
  field_text (fst row) ++ [csv.delimiter] ++ field_text (snd row).

(** The manifest in the words of the specification: the header line, then
    one line per row, each ended by [linesep], and nothing after. *)
Definition manifest_format (linesep : str) (rows : list (str * str)) : str :=
  concat (map (fun line => line ++ linesep)
              (lit "absolute_path,relative_path" :: map manifest_line rows)).


(** A component of a normalised absolute path. *)
Definition clean (comp : str) : Prop :=
  comp <> [] /\ comp <> curdir /\ comp <> pardir /\ ~ In sep comp.

(** The loop body of [normpath] on an absolute path. *)
Definition step : list str -> str -> list str := normpath_step 1.

(** The components [normpath] keeps of an absolute path. *)
Definition comps_of (F : str) : list str := fold_left step (Str.split sep F) [].

(** What [abspath] hands to [normpath]. *)
Definition full (cwd p : str) : str := if isabs p then p else join cwd [p].

(** [path] is empty or ends with a slash: [join] adds no slash after it. *)
Definition tail_sep (path : str) : bool :=
  match path with [] => true | _ => Str.endswith path [sep] end.

(** A component [join] takes as it is. *)
Definition nice (comp : str) : Prop := comp <> [] /\ ~ In sep comp.



(** A text as a file opened with [mode='r'] gives it. *)
Definition as_read (x : str) : str := io.translate_newlines x.

(** A row the reader accepts: its fields, as read, are no longer than the
    field limit. *)
Definition fits (row : str * str) : Prop :=
  within_limit (as_read (fst row)) /\ within_limit (as_read (snd row)).

(** The paths for which [save_annotations] writes a row that fits. *)
Definition path_fits (cwd annotation_file p : str) : Prop :=
  within_limit (as_read (posixpath.abspath cwd p)) /\
  forall rel,
    posixpath.relpath cwd p (posixpath.dirname annotation_file) = Ok rel ->
    within_limit (as_read rel).

(** A path with a carriage return and a line feed in its name. *)
Definition path_with_CR : str := lit "x" ++ [io.CR] ++ lit "y" ++ [io.CR; io.LF] ++ lit "z.png".

(** A field longer than the reader's field limit. *)
Definition too_long (x : str) : Prop :=
  (csv.field_limit < Z.of_nat (length x))%Z.

(** A row one field of which, as read, is too long. *)
Definition overflows (row : str * str) : Prop :=
  too_long (as_read (fst row)) \/ too_long (as_read (snd row)).

(** The paths for which [save_annotations] writes a row that overflows. *)
Definition path_overflows (cwd annotation_file p : str) : Prop :=
  too_long (as_read (posixpath.abspath cwd p)) \/
  exists rel,
    posixpath.relpath cwd p (posixpath.dirname annotation_file) = Ok rel /\
    too_long (as_read rel).

(** A path in the form [abspath] gives: absolute, and left as it is by
    [abspath] in any working directory. *)
Definition normal_absolute (x : str) : Prop :=
  posixpath.isabs x = true /\ forall cwd', posixpath.abspath cwd' x = x.

(** A relative path: not empty, and not beginning with a slash. *)
Definition relative (x : str) : Prop :=
  x <> [] /\ posixpath.isabs x = false.

(** The number of non-directories with an image suffix in the directory
    [e] and the directories below it. *)
Fixpoint count_images (e : entry) : nat :=
  match e with
  | Dir children =>
      (fix count (l : list (str * entry)) : nat :=
         match l with
         | [] => O
         | (name, sub) :: l' =>
             (match sub with
              | File => if Str.endswith_any name image_suffixes then 1 else 0
              | _ => count_images sub
              end + count l')%nat
         end) children
  | _ => O
  end.

(** The paths the loops of [download_images] collect from what [os.walk]
    yields. *)
Definition collect (walked : list (str * list str * list str)) : list str :=
  flat_map
    (fun t : str * list str * list str =>
       let '(dirname, _, filenames) := t in
       map (fun filename => posixpath.join dirname [filename])
           (filter (fun filename => Str.endswith_any filename image_suffixes)
                   filenames))
    walked.

(** A name as a directory has it: not empty and without a slash. *)
Definition nice_name (name : str) : bool :=
  negb (Str.eqb name []) && negb (Str.contains posixpath.sep name).

(** No two of the names are the same. *)
Fixpoint distinct (names : list str) : bool :=
  match names with
  | [] => true
  | name :: names' => negb (existsb (Str.eqb name) names') && distinct names'
  end.

(** The names of a directory as a file system has them: none is empty, none
    holds a slash and no two are the same; and so in every directory
    below. *)
Fixpoint well_named (e : entry) : bool :=
  match e with
  | Dir children =>
      forallb (fun ne => nice_name (fst ne)) children
      && distinct (map fst children)
      && (fix all (l : list (str * entry)) : bool :=
            match l with
            | [] => true
            | (_, sub) :: l' => well_named sub && all l'
            end) children
  | _ => true
  end.

(** What [join] puts before a name it adds to [top]. *)
Definition dir_prefix (top : str) : str :=
  if tail_sep top then top else top ++ [posixpath.sep].

(** A tree with a folder of images, a text file and a link. *)
Definition nested_folder : list (str * entry) :=
  [(lit "a.jpg", File);
   (lit "cat", Dir [(lit "b.png", File); (lit "notes.txt", File);
                    (lit "more", Dir [(lit "c.jpeg", File)])]);
   (lit "link.png", DirLink);
   (lit "d.PNG", File)].



(** * Properties *)

(** ** The runtime model on examples *)

Example normpath_ex1 :
  posixpath.normpath (lit "/a//b/./c/../d") = lit "/a/b/d".
Proof. reflexivity. Qed.

Example normpath_ex2 : posixpath.normpath (lit "//a/..") = lit "//".
Proof. reflexivity. Qed.

Example normpath_ex3 : posixpath.normpath (lit "///a") = lit "/a".
Proof. reflexivity. Qed.

Example normpath_ex4 : posixpath.normpath (lit "../a/../../b") = lit "../../b".
Proof. reflexivity. Qed.

Example dirname_ex1 : posixpath.dirname (lit "out/manifest.csv") = lit "out".
Proof. reflexivity. Qed.

Example dirname_ex2 : posixpath.dirname (lit "manifest.csv") = lit "".
Proof. reflexivity. Qed.

Example dirname_ex3 : posixpath.dirname (lit "//manifest.csv") = lit "//".
Proof. reflexivity. Qed.

Example relpath_ex1 :
  posixpath.relpath (lit "/home/u") (lit "imgs/cat/1.jpg") (lit "out")
  = Ok (lit "../imgs/cat/1.jpg").
Proof. reflexivity. Qed.

Example relpath_ex2 :
  posixpath.relpath (lit "/home/u") (lit "") (lit "out") = Raise ValueError.
Proof. reflexivity. Qed.

Example writerow_ex1 :
  csv.writerow [lit "/w/a.jpg"; lit "a.jpg"] = lit "/w/a.jpg,a.jpg" ++ csv.lineterminator.
Proof. reflexivity. Qed.

Example writerow_ex2 :
  csv.writerow [lit "/w/a,b.jpg"; lit "a" ++ [csv.quotechar] ++ lit "b.jpg"]
  = [csv.quotechar] ++ lit "/w/a,b.jpg" ++ [csv.quotechar; ","%char; csv.quotechar]
    ++ lit "a" ++ [csv.quotechar; csv.quotechar] ++ lit "b.jpg" ++ [csv.quotechar]
    ++ csv.lineterminator.
Proof. reflexivity. Qed.

(** ** The iterator *)

Module IteratorFacts.
Import ImageIterator.

Lemma getitem_in_range {A : Type} (l : list A) (i : Z) :
  (0 <= i < Z.of_nat (length l))%Z ->
  exists x, nth_error l (Z.to_nat i) = Some x /\ getitem l i = Ok x.
Proof.
  intros Hi. unfold getitem.
  destruct (nth_error l (Z.to_nat i)) as [x|] eqn:Hn.
  - exists x. split; [reflexivity|].
    replace (i <? 0)%Z with false by (symmetry; apply Z.ltb_ge; lia).
    replace (i <? 0)%Z with false by (symmetry; apply Z.ltb_ge; lia).
    replace (Z.of_nat (length l) <=? i)%Z with false
      by (symmetry; apply Z.leb_gt; lia).
    simpl. rewrite Hn. reflexivity.
  - apply nth_error_None in Hn. lia.
Qed.

Lemma next_in_range (self : t) :
  (0 <= current_index self < len self)%Z ->
  exists x,
    nth_error (image_paths self) (Z.to_nat (current_index self)) = Some x /\
    __next__ self = (Ok x, at_index self (current_index self + 1)).
Proof.
  intros Hi. unfold len in Hi.
  destruct (getitem_in_range (image_paths self) (current_index self) Hi)
    as [x [Hn Hg]].
  exists x. split; [exact Hn|].
  unfold __next__. rewrite Hg.
  replace (current_index self <? Z.of_nat (length (image_paths self)))%Z with true
    by (symmetry; apply Z.ltb_lt; lia).
  reflexivity.
Qed.

Lemma next_exhausted (self : t) :
  (len self <= current_index self)%Z ->
  __next__ self = (Raise StopIteration, self).
Proof.
  intros Hi. unfold len in Hi. unfold __next__.
  replace (current_index self <? Z.of_nat (length (image_paths self)))%Z with false
    by (symmetry; apply Z.ltb_ge; lia).
  reflexivity.
Qed.


Lemma skipn_nth_cons {A : Type} (l : list A) (n : nat) (x : A) :
  nth_error l n = Some x -> skipn n l = x :: skipn (S n) l.
Proof.
  revert n. induction l as [|a l IH]; intros [|n] H; simpl in *; try discriminate.
  - inversion H; reflexivity.
  - apply IH. exact H.
Qed.

(** The calls of [next] from an index in range: the elements from the index
    on, then [StopIteration]. *)
Lemma nexts_from (k : nat) :
  forall self,
    (0 <= current_index self)%Z ->
    Z.to_nat (len self - current_index self) = k ->
    forall extra,
      nexts (k + extra) self
      = (map Ok (skipn (Z.to_nat (current_index self)) (image_paths self))
           ++ repeat (Raise StopIteration) extra,
         at_index self (Z.max (current_index self) (len self))).
Proof.
  assert (Hstop : forall extra self, (len self <= current_index self)%Z ->
            nexts extra self = (repeat (Raise StopIteration) extra, self)).
  { induction extra as [|extra IH]; intros self Hge; simpl; [reflexivity|].
    rewrite (next_exhausted self Hge). rewrite (IH self Hge). reflexivity. }
  induction k as [|k IH]; intros self H0 Hk extra.
  - assert (Hge : (len self <= current_index self)%Z) by lia.
    change (0 + extra)%nat with extra. rewrite (Hstop extra self Hge).
    rewrite skipn_all2 by (unfold len in Hge; lia).
    simpl. f_equal. destruct self as [f p i]; unfold at_index; simpl in *.
    f_equal. unfold len in Hge; simpl in Hge. lia.
  - assert (Hlt : (0 <= current_index self < len self)%Z) by lia.
    destruct (next_in_range self Hlt) as [x [Hn Hx]].
    simpl. rewrite Hx.
    rewrite (IH (at_index self (current_index self + 1)));
      [| simpl; lia | unfold len in *; simpl; lia].
    rewrite (skipn_nth_cons _ _ _ Hn).
    cbn [at_index current_index image_paths map app].
    replace (Z.to_nat (current_index self + 1)) with (S (Z.to_nat (current_index self)))
      by lia.
    f_equal. unfold at_index, len; cbn [current_index image_paths].
    f_equal. unfold len in Hlt. lia.
Qed.

(** The [for] loop from an index that is not negative. *)
Lemma for_next_from (k : nat) :
  forall self,
    (0 <= current_index self)%Z ->
    Z.to_nat (len self - current_index self) = k ->
    for_next self
    = (skipn (Z.to_nat (current_index self)) (image_paths self),
       (at_index self (Z.max (current_index self) (len self)), Ok tt)).
Proof.
  induction k as [|k IH]; intros self H0 Hk; rewrite for_next_equation.
  - assert (Hge : (len self <= current_index self)%Z) by lia.
    rewrite (next_exhausted self Hge).
    rewrite skipn_all2 by (unfold len in Hge; lia).
    f_equal. f_equal. destruct self as [f p i]; unfold at_index; simpl in *.
    f_equal. unfold len in Hge; simpl in Hge. lia.
  - assert (Hlt : (0 <= current_index self < len self)%Z) by lia.
    destruct (next_in_range self Hlt) as [x [Hn Hx]].
    rewrite Hx.
    rewrite (IH (at_index self (current_index self + 1)));
      [| simpl; lia | unfold len in *; simpl; lia].
    rewrite (skipn_nth_cons _ _ _ Hn).
    cbn [at_index current_index image_paths].
    replace (Z.to_nat (current_index self + 1)) with (S (Z.to_nat (current_index self)))
      by lia.
    f_equal. f_equal. unfold at_index, len; cbn [current_index image_paths].
    f_equal. unfold len in Hlt. lia.
Qed.

Lemma init_fresh (fs : filesystem) (file : str) (it : t) :
  __init__ fs file = Ok it ->
  current_index it = 0%Z /\
  read_column fs file = Ok (image_paths it).
Proof.
  unfold __init__, load_annotations. cbn [annotation_file current_index].
  destruct (read_column fs file) as [paths|]; [|discriminate].
  intros H; inversion H; subst; simpl. split; reflexivity.
Qed.

Lemma init_loaded (fs : filesystem) (file : str) (paths : list str) :
  read_column fs file = Ok paths ->
  __init__ fs file
  = Ok {| annotation_file := file; image_paths := paths; current_index := 0 |}.
Proof.
  intros H. unfold __init__, load_annotations.
  cbn [annotation_file current_index]. rewrite H. reflexivity.
Qed.

Lemma init_raises (fs : filesystem) (file : str) (e : exn) :
  read_column fs file = Raise e -> __init__ fs file = Raise e.
Proof.
  intros H. unfold __init__, load_annotations.
  cbn [annotation_file current_index]. rewrite H. reflexivity.
Qed.

(** ** Opening files *)

Lemma open_w_no_NUL (fs : filesystem) (p : str) :
  io.open_w fs p = Ok tt -> Str.contains io.NUL p = false.
Proof.
  unfold io.open_w. destruct (Str.contains io.NUL p); [discriminate | reflexivity].
Qed.

Lemma open_r_lookup (fs : filesystem) (p content : str) :
  io.open_r fs p = Ok content ->
  Str.contains io.NUL p = false /\ lookup fs p = Some (Regular content).
Proof.
  unfold io.open_r. destruct (Str.contains io.NUL p); [discriminate|].
  destruct (lookup fs p) as [[c|]|]; try discriminate.
  intros H. inversion H. split; reflexivity.
Qed.

Lemma read_column_opened (fs : filesystem) (file content : str) :
  io.open_r fs file = Ok content ->
  read_column fs file
  = (header <- csv.Reader_iternext (io.lines_r content) ;;
     match header with
     | (None, _) => Raise StopIteration
     | (Some _, f) => column0 f
     end).
Proof. intros H. unfold read_column. rewrite H. reflexivity. Qed.

End IteratorFacts.

Import ImageIterator IteratorFacts.

(** C3.  Once [current_index] has reached the length of the loaded sequence,
    every later call of [next] raises [StopIteration]: [n] calls in a row give
    [n] times [StopIteration] (no value, no other exception) and leave the
    object as it was (no restart). *)
Theorem exhaustion_is_stable (self : ImageIterator.t) (n : nat) :
  (Z.of_nat (length (image_paths self)) <= current_index self)%Z ->
  nexts n self = (repeat (Raise StopIteration) n, self).
Proof.
  intros Hge. induction n as [|n IH]; simpl; [reflexivity|].
  rewrite (next_exhausted self Hge). rewrite IH. reflexivity.
Qed.

Lemma exhaustion_is_stable_witness :
  nexts 3 (at_index two_paths_one_read 2)
  = (repeat (Raise StopIteration) 3, at_index two_paths_one_read 2).
Proof. apply exhaustion_is_stable. simpl. lia. Defined.



(** C10, as the program has it.  The constructor establishes
    [0 <= current_index <= len(image_paths)] and [iter] and [next] keep it; a
    call of [next] that returns a value returns the element at the index
    before the call and moves the index forward by exactly one; a fresh
    iterator returns its [len(image_paths)] elements in [len(image_paths)]
    calls and raises [StopIteration] at the next.  A call of
    [load_annotations] that returns puts the first column of the file as it
    is now in [image_paths] and leaves [current_index] and [annotation_file]
    as they are: on an object that has the invariant it keeps it exactly when
    the list just read has at least [current_index] paths.  A call of
    [load_annotations] that raises leaves the object as it was. *)
Theorem index_invariant :
  (forall fs file it, __init__ fs file = Ok it -> index_in_range it) /\
  (forall self, index_in_range self -> index_in_range (__iter__ self)) /\
  (forall self, index_in_range self -> index_in_range (snd (__next__ self))) /\
  (forall self x self',
      index_in_range self -> __next__ self = (Ok x, self') ->
      nth_error (image_paths self) (Z.to_nat (current_index self)) = Some x /\
      current_index self' = (current_index self + 1)%Z /\
      image_paths self' = image_paths self) /\
  (forall fs file it,
      __init__ fs file = Ok it ->
      nexts (length (image_paths it) + 1) it
      = (map Ok (image_paths it) ++ [Raise StopIteration], at_index it (len it))) /\
  (forall fs self self',
      index_in_range self -> load_annotations fs self = (Ok tt, self') ->
      read_column fs (annotation_file self) = Ok (image_paths self') /\
      current_index self' = current_index self /\
      annotation_file self' = annotation_file self /\
      (index_in_range self' <-> (current_index self <= len self')%Z)) /\
  (forall fs self e self',
      load_annotations fs self = (Raise e, self') -> self' = self).
Proof.
  split; [|split; [|split; [|split; [|split; [|split]]]]].
  - intros fs file it H. destruct (init_fresh fs file it H) as [Hi _].
    unfold index_in_range, len. rewrite Hi. lia.
  - intros self H. exact H.
  - intros self H. unfold index_in_range, len in *.
    destruct (Z.ltb_spec (current_index self) (Z.of_nat (length (image_paths self))))
      as [Hlt|Hge].
    + destruct (next_in_range self) as [x [_ Hx]]; [unfold len; lia|].
      rewrite Hx. simpl. lia.
    + rewrite next_exhausted by (unfold len; lia). simpl. lia.
  - intros self x self' H Hnext. unfold index_in_range in H.
    destruct (Z.ltb_spec (current_index self) (len self)) as [Hlt|Hge].
    + destruct (next_in_range self) as [y [Hn Hy]]; [lia|].
      rewrite Hy in Hnext. inversion Hnext; subst. simpl. auto.
    + rewrite next_exhausted in Hnext by exact Hge. discriminate.
  - intros fs file it H. destruct (init_fresh fs file it H) as [Hi _].
    assert (H0 : (0 <= current_index it)%Z) by lia.
    assert (Hk : Z.to_nat (len it - current_index it) = length (image_paths it))
      by (unfold len; lia).
    rewrite (nexts_from _ it H0 Hk 1). rewrite Hi. simpl.
    f_equal. f_equal. unfold len. lia.
  - intros fs self self' Hinv H. unfold load_annotations in H.
    destruct (read_column fs (annotation_file self)) as [paths|]; [|discriminate].
    inversion H; subst self'.
    unfold index_in_range, len in *. cbn [image_paths current_index annotation_file].
    repeat split; lia.
  - intros fs self e self' H. unfold load_annotations in H.
    destruct (read_column fs (annotation_file self)) as [paths|]; [discriminate|].
    inversion H. reflexivity.
Qed.

(** C10 as stated fails: an iterator that has returned both of its paths
    has the invariant; the manifest is then written anew with no path, and
    [load_annotations] leaves the object with no path and index 2. *)
Lemma load_annotations_leaves_index_beyond_length :
  index_in_range two_paths_both_read /\
  load_annotations (one_file (lit "manifest.csv") standard_header_line)
                   two_paths_both_read
  = (Ok tt,
     {| annotation_file := lit "manifest.csv";
        image_paths := [];
        current_index := 2 |}) /\
  (len {| annotation_file := lit "manifest.csv";
          image_paths := [];
          current_index := 2 |}
   < current_index {| annotation_file := lit "manifest.csv";
                      image_paths := [];
                      current_index := 2 |})%Z.
Proof.
  split; [unfold index_in_range, len; simpl; lia|].
  split; [vm_compute; reflexivity | reflexivity].
Qed.

(** C8.  Two iterators constructed over manifests with the same text (the
    same unmodified file in particular) give the same sequence when each is
    drained by a [for] loop, and that sequence is the loaded one. *)
Theorem reread_is_identical (fs fs' : filesystem) (file file' : str)
    (it it' : ImageIterator.t) :
  lookup fs file = lookup fs' file' ->
  __init__ fs file = Ok it ->
  __init__ fs' file' = Ok it' ->
  fst (for_loop it) = fst (for_loop it') /\
  fst (for_loop it) = image_paths it /\
  snd (snd (for_loop it)) = Ok tt.
Proof.
  intros Hsame H H'.
  destruct (init_fresh fs file it H) as [Hi Hl].
  destruct (init_fresh fs' file' it' H') as [Hi' Hl'].
  assert (Hp : image_paths it = image_paths it').
  { unfold read_column in Hl, Hl'.
    destruct (io.open_r fs file) as [content|] eqn:Ho; [|discriminate].
    destruct (io.open_r fs' file') as [content'|] eqn:Ho'; [|discriminate].
    apply open_r_lookup in Ho, Ho'. destruct Ho as [_ Ho], Ho' as [_ Ho'].
    rewrite Hsame, Ho' in Ho. inversion Ho; subst content'.
    rewrite Hl in Hl'. inversion Hl'. reflexivity. }
  unfold for_loop, __iter__.
  rewrite (for_next_from _ it) by (rewrite ?Hi; lia || reflexivity).
  rewrite (for_next_from _ it') by (rewrite ?Hi'; lia || reflexivity).
  rewrite Hi, Hi', Hp. simpl. auto.
Qed.

Lemma reread_is_identical_witness :
  let text := lit "absolute_path,relative_path" ++ csv.lineterminator
              ++ lit "/w/a.jpg,a.jpg" ++ csv.lineterminator in
  let it := {| annotation_file := lit "manifest.csv";
               image_paths := [lit "/w/a.jpg"];
               current_index := 0 |} in
  let it' := {| annotation_file := lit "copy.csv";
                image_paths := [lit "/w/a.jpg"];
                current_index := 0 |} in
  fst (for_loop it) = fst (for_loop it') /\
  fst (for_loop it) = [lit "/w/a.jpg"] /\
  snd (snd (for_loop it)) = Ok tt.
Proof.
  intros text it it'.
  apply (reread_is_identical (one_file (lit "manifest.csv") text)
           (one_file (lit "copy.csv") text)
           (lit "manifest.csv") (lit "copy.csv") it it');
    vm_compute; reflexivity.
Defined.

(** ** The walk of the download folder *)

Section EntryInduction.
Variable P : entry -> Prop.
Hypothesis HFile : P File.
Hypothesis HDirLink : P DirLink.
Hypothesis HDir : forall children,
      Forall (fun ne => P (snd ne)) children -> P (Dir children).

Fixpoint entry_nested_ind (e : entry) : P e :=
    match e with
    | File => HFile
    | DirLink => HDirLink
    | Dir children =>
        HDir children
          ((fix all (l : list (str * entry)) : Forall (fun ne => P (snd ne)) l :=
              match l with
              | [] => Forall_nil _
              | ne :: l' => Forall_cons ne (entry_nested_ind (snd ne)) (all l')
              end) children)
    end.
End EntryInduction.

Lemma eqb_str_eq (a b : str) : Str.eqb a b = true <-> a = b.
Proof.
  revert b. induction a as [|x a IH]; intros [|y b]; simpl; split; intros H;
    try reflexivity; try discriminate.
  - apply andb_true_iff in H. destruct H as [H1 H2].
    apply Ascii.eqb_eq in H1. apply IH in H2. subst. reflexivity.
  - inversion H; subst. apply andb_true_iff. split.
    + apply Ascii.eqb_refl.
    + apply IH. reflexivity.
Qed.

Lemma startswith_spec (s p : str) :
  Str.startswith s p = true <-> exists rest, s = p ++ rest.
Proof.
  revert s. induction p as [|y p IH]; intros s; simpl.
  - split; [intros _; exists s; reflexivity | reflexivity].
  - destruct s as [|x s].
    + split; [discriminate | intros [r H]; discriminate].
    + rewrite andb_true_iff, Ascii.eqb_eq, IH. split.
      * intros [E [r Hr]]. subst. exists r. reflexivity.
      * intros [r Hr]. inversion Hr; subst. split; [reflexivity | exists r; reflexivity].
Qed.

(** [s.endswith(p)] holds exactly when [s] is some text followed by [p]. *)
Lemma endswith_spec (s p : str) :
  Str.endswith s p = true <-> exists stem, s = stem ++ p.
Proof.
  unfold Str.endswith. rewrite startswith_spec. split.
  - intros [r Hr]. exists (rev r).
    rewrite <- (rev_involutive s), Hr, rev_app_distr, rev_involutive. reflexivity.
  - intros [stem H]. exists (rev stem). subst. apply rev_app_distr.
Qed.

Lemma nondirs_spec (children : list (str * entry)) (name : str) :
  In name (os.nondirs children) <-> In (name, File) children.
Proof.
  unfold os.nondirs. rewrite in_map_iff. split.
  - intros [[n e] [Hn Hin]]. simpl in Hn. subst.
    apply filter_In in Hin. destruct Hin as [Hin He]. simpl in He.
    destruct e; try discriminate. exact Hin.
  - intros H. exists (name, File). split; [reflexivity|].
    apply filter_In. split; [exact H | reflexivity].
Qed.

Lemma walk_unfold (top : str) (children : list (str * entry)) :
  os._walk top (Dir children)
  = (top, os.dirs children, os.nondirs children) :: flat_map (walk_into top) children.
Proof.
  simpl. f_equal. induction children as [|[n e] l IH]; [reflexivity|].
  rewrite IH. unfold walk_into at 2. simpl. destruct e; reflexivity.
Qed.

Lemma walk_spec (e : entry) :
  forall top children, e = Dir children ->
    forall dirpath name,
      (exists ds fs, In (dirpath, ds, fs) (os._walk top e) /\ In name fs)
      <-> file_at top children dirpath name.
Proof.
  induction e as [| |ch IH] using entry_nested_ind; intros top children E;
    try discriminate.
  inversion E; subst ch; clear E. intros dirpath name.
  rewrite walk_unfold. split.
  - intros [ds [fs [[Hhd|Htl] Hname]]].
    + inversion Hhd; subst. apply file_here. apply nondirs_spec. exact Hname.
    + apply in_flat_map in Htl. destruct Htl as [[n sub] [Hin Hw]].
      unfold walk_into in Hw. simpl in Hw.
      destruct sub as [| |sub]; try contradiction.
      rewrite Forall_forall in IH.
      apply (file_below top children n sub); [exact Hin|].
      apply (IH (n, Dir sub) Hin _ sub eq_refl). exists ds, fs. split; assumption.
  - intros H. remember (Dir children) as e eqn:E.
    revert IH. inversion H as [t c nm Hin | t c dn sub dp nm Hin Hsub]; subst; intros IH.
    + exists (os.dirs children), (os.nondirs children). split.
      * left. reflexivity.
      * apply nondirs_spec. exact Hin.
    + rewrite Forall_forall in IH.
      apply (IH (dn, Dir sub) Hin _ sub eq_refl) in Hsub.
      destruct Hsub as [ds [fs [Hw Hname]]]. exists ds, fs. split; [|exact Hname].
      right. apply in_flat_map. exists (dn, Dir sub). split; [exact Hin|].
      unfold walk_into. simpl fst. simpl snd. exact Hw.
Qed.

(** C2.  The walk after the download collects the path [join(dirpath, name)]
    of exactly the non-directories [name] found in the folder or in a
    directory below it, at any depth, whose name is some text followed by
    [.jpg], [.jpeg] or [.png] as written; for the folder holding [a.jpg],
    [b.txt], [c.PNG] and [d.png] these are [a.jpg] and [d.png]. *)
Theorem walk_collects_image_files :
  (forall crawl folder keyword download_folder num_images p,
      In p (download_images crawl folder keyword download_folder num_images) <->
      exists dirpath name,
        file_at download_folder (crawl download_folder keyword num_images folder)
                dirpath name /\
        (exists stem, name = stem ++ lit ".jpg" \/ name = stem ++ lit ".jpeg"
                      \/ name = stem ++ lit ".png") /\
        p = posixpath.join dirpath [name]) /\
  download_images no_crawl example_folder (lit "cat") (lit "download") 100
  = [lit "download/a.jpg"; lit "download/d.png"].
Proof.
  split; [|reflexivity].
  intros crawl folder keyword download_folder num_images p.
  assert (Hsuf : forall name, Str.endswith_any name image_suffixes = true <->
            exists stem, name = stem ++ lit ".jpg" \/ name = stem ++ lit ".jpeg"
                         \/ name = stem ++ lit ".png").
  { intros name. unfold Str.endswith_any, image_suffixes. simpl existsb.
    rewrite !orb_true_iff, !endswith_spec. split.
    - intros [[s H]|[[s H]|[[s H]|H]]]; try discriminate; exists s; auto.
    - intros [s [H|[H|H]]]; [left | right; left | right; right; left];
        exists s; exact H. }
  unfold download_images, os.walk. rewrite in_flat_map. split.
  - intros [[[d ds] fs] [Hw Hp]]. apply in_map_iff in Hp.
    destruct Hp as [name [Hp Hname]]. apply filter_In in Hname.
    destruct Hname as [Hname Hs]. exists d, name. split; [|split].
    + apply (walk_spec _ download_folder _ eq_refl). exists ds, fs. split; assumption.
    + apply Hsuf. exact Hs.
    + symmetry. exact Hp.
  - intros [d [name [Hat [Hs Hp]]]].
    apply (walk_spec _ download_folder _ eq_refl) in Hat.
    destruct Hat as [ds [fs [Hw Hname]]]. exists (d, ds, fs). split; [exact Hw|].
    apply in_map_iff. exists name. split; [symmetry; exact Hp|].
    apply filter_In. split; [exact Hname | apply Hsuf; exact Hs].
Qed.

(** ** Construction of the iterator on manifests that are not well formed *)


(** C4 (the empty file).  Constructing the iterator over a file with no text
    at all does not succeed: the [next(reader)] that skips the header raises
    [StopIteration], which leaves the constructor. *)
Theorem empty_file_raises_StopIteration :
  __init__ (one_file (lit "manifest.csv") []) (lit "manifest.csv")
  = Raise StopIteration.
Proof. vm_compute. reflexivity. Qed.

(** Over a file holding the header line only the constructor succeeds and
    loads no path. *)
Lemma header_only_loads_nothing (fs : filesystem) (file : str) :
  io.open_r fs file = Ok standard_header_line ->
  __init__ fs file
  = Ok {| annotation_file := file; image_paths := []; current_index := 0 |}.
Proof.
  intros H. apply init_loaded. rewrite (read_column_opened fs file _ H).
  vm_compute. reflexivity.
Qed.





(** ** Reading back what the writer wrote *)

Module ReaderFacts.
Import csv.

Lemma special_false (c : ascii) :
  special c = false ->
  Ascii.eqb c delimiter = false /\ Ascii.eqb c quotechar = false /\
  is_newline c = false /\ Ascii.eqb c io.LF = false /\ Ascii.eqb c io.CR = false.
Proof.
  unfold special, is_newline, lineterminator, Str.contains. simpl.
  destruct (Ascii.eqb c delimiter), (Ascii.eqb c quotechar),
    (Ascii.eqb c io.CR), (Ascii.eqb c io.LF); simpl; intros H;
    try discriminate; auto.
Qed.

Lemma copy_field_plain (x : str) :
  existsb special x = false -> copy_field x = x.
Proof.
  induction x as [|c x IH]; simpl; [reflexivity|].
  intros H. apply orb_false_iff in H. destruct H as [Hc Hx].
  destruct (special_false c Hc) as [_ [Hq _]]. rewrite Hq, (IH Hx). reflexivity.
Qed.

Lemma writerow_two (a r : str) :
  writerow [a; r] = field_text a ++ [delimiter] ++ field_text r ++ lineterminator.
Proof.
  assert (E : join_fields [] O [a; r] = field_text a ++ [delimiter] ++ field_text r).
  { unfold join_fields, join_append, field_text.
    destruct (existsb special a) eqn:Ha, (existsb special r) eqn:Hr;
      rewrite ?(copy_field_plain a Ha), ?(copy_field_plain r Hr);
      repeat (rewrite <- ?app_assoc; simpl app); rewrite ?app_nil_r;
      reflexivity. }
  unfold writerow. rewrite E.
  destruct (field_text a ++ [delimiter] ++ field_text r) as [|c t] eqn:E'.
  - apply app_eq_nil in E'. destruct E' as [_ E']. discriminate.
  - rewrite <- E'. rewrite <- !app_assoc. reflexivity.
Qed.

Lemma add_char_ok (fs : list str) (st : ParserState) (buf : str) (c : ascii) :
  (Z.of_nat (length buf) < field_limit)%Z ->
  parse_add_char (buffered fs st buf) c = Ok (buffered fs st (c :: buf)).
Proof.
  intros H. unfold parse_add_char, buffered. simpl fields. simpl state.
  simpl field. simpl field_len.
  replace (field_limit <=? Z.of_nat (length buf))%Z with false
    by (symmetry; apply Z.leb_gt; exact H).
  f_equal. f_equal. simpl length. lia.
Qed.

Lemma readlines_nonempty (s : str) : s <> [] -> io.readlines s <> [].
Proof.
  destruct s as [|c s]; [congruence|]. intros _. simpl.
  destruct (Ascii.eqb c io.LF); [discriminate|].
  destruct (io.readlines s); discriminate.
Qed.

(** One character that is not LF, with more text after it. *)
Lemma Reader_char (self : ReaderObj) (c : ascii) (s : str) :
  Ascii.eqb c io.LF = false -> s <> [] ->
  Reader_loop self (io.readlines (c :: s))
  = (self' <- parse_process_char self (Ch c) ;; Reader_loop self' (io.readlines s)).
Proof.
  intros Hc Hs. simpl io.readlines. rewrite Hc.
  destruct (io.readlines s) as [|l ls] eqn:E.
  - exfalso. apply (readlines_nonempty s Hs E).
  - simpl. destruct (parse_process_char self (Ch c)); reflexivity.
Qed.

(** An LF: the end of a line. *)
Lemma Reader_LF (self : ReaderObj) (s : str) :
  Reader_loop self (io.readlines (io.LF :: s))
  = (self1 <- parse_process_char self (Ch io.LF) ;;
     self2 <- parse_process_char self1 EOL ;;
     match state self2 with
     | START_RECORD => Ok (Some (fields self2), io.readlines s)
     | _ => Reader_loop self2 (io.readlines s)
     end).
Proof.
  simpl io.readlines. simpl Reader_loop.
  destruct (parse_process_char self (Ch io.LF)); reflexivity.
Qed.

(** The body of a quoted field, whatever its characters. *)
Lemma quoted_body (x : str) :
  forall fs buf rest,
    rest <> [] ->
    (Z.of_nat (length buf + length x) <= field_limit)%Z ->
    Reader_loop (buffered fs IN_QUOTED_FIELD buf) (io.readlines (copy_field x ++ rest))
    = Reader_loop (buffered fs IN_QUOTED_FIELD (rev x ++ buf)) (io.readlines rest).
Proof.
  induction x as [|c x IH]; intros fs buf rest Hrest Hlen; [reflexivity|].
  assert (Hbuf : (Z.of_nat (length buf) < field_limit)%Z) by (simpl in Hlen; lia).
  assert (Hlen' : (Z.of_nat (length (c :: buf) + length x) <= field_limit)%Z)
    by (simpl in *; lia).
  assert (Hne : copy_field x ++ rest <> [])
    by (intros E; apply app_eq_nil in E; destruct E; contradiction).
  simpl rev. rewrite <- app_assoc. simpl app. simpl copy_field.
  destruct (Ascii.eqb c quotechar) eqn:Hq.
  - apply Ascii.eqb_eq in Hq. subst c. simpl app.
    rewrite Reader_char; [|reflexivity|discriminate].
    change (parse_process_char (buffered fs IN_QUOTED_FIELD buf) (Ch quotechar))
      with (Ok (buffered fs QUOTE_IN_QUOTED_FIELD buf)).
    cbn [bind]. rewrite Reader_char; [|reflexivity|exact Hne].
    unfold parse_process_char. simpl state. rewrite Ascii.eqb_refl.
    rewrite (add_char_ok fs QUOTE_IN_QUOTED_FIELD buf quotechar Hbuf).
    cbn [bind]. apply (IH fs (quotechar :: buf) rest Hrest Hlen').
  - simpl app. destruct (Ascii.eqb c io.LF) eqn:Hl.
    + apply Ascii.eqb_eq in Hl. subst c. rewrite Reader_LF.
      unfold parse_process_char at 1. simpl state. rewrite Hq.
      rewrite (add_char_ok fs IN_QUOTED_FIELD buf io.LF Hbuf).
      cbn [bind]. apply (IH fs (io.LF :: buf) rest Hrest Hlen').
    + rewrite Reader_char; [|exact Hl|exact Hne].
      unfold parse_process_char. simpl state. rewrite Hq.
      rewrite (add_char_ok fs IN_QUOTED_FIELD buf c Hbuf).
      cbn [bind]. apply (IH fs (c :: buf) rest Hrest Hlen').
Qed.

(** The rest of a field written without quotes. *)
Lemma plain_body (x : str) :
  forall fs buf rest,
    rest <> [] ->
    existsb special x = false ->
    (Z.of_nat (length buf + length x) <= field_limit)%Z ->
    Reader_loop (buffered fs IN_FIELD buf) (io.readlines (x ++ rest))
    = Reader_loop (buffered fs IN_FIELD (rev x ++ buf)) (io.readlines rest).
Proof.
  induction x as [|c x IH]; intros fs buf rest Hrest Hsp Hlen; [reflexivity|].
  simpl in Hsp. apply orb_false_iff in Hsp. destruct Hsp as [Hc Hx].
  destruct (special_false c Hc) as [Hd [Hq [Hn [Hl _]]]].
  assert (Hbuf : (Z.of_nat (length buf) < field_limit)%Z) by (simpl in Hlen; lia).
  assert (Hlen' : (Z.of_nat (length (c :: buf) + length x) <= field_limit)%Z)
    by (simpl in *; lia).
  assert (Hne : x ++ rest <> [])
    by (intros E; apply app_eq_nil in E; destruct E; contradiction).
  simpl rev. rewrite <- app_assoc. simpl app.
  rewrite Reader_char; [|exact Hl|exact Hne].
  unfold parse_process_char. simpl state. rewrite Hn, Hd.
  rewrite (add_char_ok fs IN_FIELD buf c Hbuf).
  cbn [bind]. apply (IH fs (c :: buf) rest Hrest Hx Hlen').
Qed.

(** A whole field, from the state that expects one. *)
Lemma read_field (x : str) (fs : list str) (rest : str) :
  rest <> [] -> within_limit x ->
  exists self',
    field_done self' fs x /\
    Reader_loop (buffered fs START_FIELD []) (io.readlines (field_text x ++ rest))
    = Reader_loop self' (io.readlines rest).
Proof.
  intros Hrest Hlen. unfold within_limit in Hlen. unfold field_text.
  destruct (existsb special x) eqn:Hsp.
  - exists (buffered fs QUOTE_IN_QUOTED_FIELD (rev x)). split; [left; reflexivity|].
    rewrite <- !app_assoc. simpl app.
    rewrite Reader_char; [|reflexivity|].
    2:{ intros E. apply app_eq_nil in E. destruct E as [_ E]. discriminate. }
    change (parse_process_char (buffered fs START_FIELD []) (Ch quotechar))
      with (Ok (buffered fs IN_QUOTED_FIELD [])).
    cbn [bind]. rewrite quoted_body; [|discriminate|simpl; lia].
    rewrite app_nil_r. rewrite Reader_char; [|reflexivity|exact Hrest].
    unfold parse_process_char. simpl state. rewrite Ascii.eqb_refl. reflexivity.
  - destruct x as [|c x].
    + exists (buffered fs START_FIELD []). split; [|reflexivity].
      right; right. split; reflexivity.
    + exists (buffered fs IN_FIELD (rev (c :: x))). split; [right; left; reflexivity|].
      simpl in Hsp. apply orb_false_iff in Hsp. destruct Hsp as [Hc Hx].
      destruct (special_false c Hc) as [Hd [Hq [Hn [Hl _]]]].
      simpl app. rewrite Reader_char; [|exact Hl|].
      2:{ intros E. apply app_eq_nil in E. destruct E; contradiction. }
      unfold parse_process_char. simpl state. unfold in_START_FIELD.
      rewrite Hn, Hq, Hd.
      rewrite (add_char_ok fs START_FIELD [] c) by (simpl; unfold field_limit; lia).
      cbn [bind].
      change (set_state (buffered fs START_FIELD [c]) IN_FIELD)
        with (buffered fs IN_FIELD [c]).
      rewrite plain_body; [|exact Hrest|exact Hx|simpl in *; lia].
      reflexivity.
Qed.

Lemma after_field_delimiter (self : ReaderObj) (fs : list str) (x : str) :
  field_done self fs x ->
  parse_process_char self (Ch delimiter) = Ok (buffered (fs ++ [x]) START_FIELD []).
Proof.
  intros [H|[H|[Hx H]]]; subst; unfold parse_process_char; simpl state;
    unfold buffered, parse_save_field, set_state; simpl;
    rewrite ?rev_involutive; reflexivity.
Qed.

Lemma after_field_LF (self : ReaderObj) (fs : list str) (x : str) :
  field_done self fs x ->
  (self1 <- parse_process_char self (Ch io.LF) ;; parse_process_char self1 EOL)
  = Ok (buffered (fs ++ [x]) START_RECORD []).
Proof.
  intros [H|[H|[Hx H]]]; subst; unfold parse_process_char; simpl state;
    unfold buffered, parse_save_field, set_state; simpl;
    rewrite ?rev_involutive; reflexivity.
Qed.

Lemma field_text_head (x : str) (rest : str) (c : ascii) :
  is_newline c = false ->
  exists d t, field_text x ++ c :: rest = d :: t /\ is_newline d = false.
Proof.
  intros Hc. unfold field_text. destruct (existsb special x) eqn:Hsp.
  - eexists. eexists. split; [reflexivity|reflexivity].
  - destruct x as [|d x].
    + exists c, rest. split; [reflexivity | exact Hc].
    + exists d, (x ++ c :: rest). split; [reflexivity|].
      simpl in Hsp. apply orb_false_iff in Hsp. destruct Hsp as [Hd _].
      apply (special_false d Hd).
Qed.

(** A record of two fields followed by LF, read by a fresh [next(reader)]. *)
Lemma read_record (a r : str) (rest : str) :
  within_limit a -> within_limit r ->
  Reader_iternext
    (io.readlines (field_text a ++ [delimiter] ++ field_text r ++ [io.LF] ++ rest))
  = Ok (Some [a; r], io.readlines rest).
Proof.
  intros Ha Hr. unfold Reader_iternext.
  change parse_reset with (buffered [] START_RECORD []).
  assert (Hstart :
    Reader_loop (buffered [] START_RECORD [])
      (io.readlines (field_text a ++ [delimiter] ++ field_text r ++ [io.LF] ++ rest))
    = Reader_loop (buffered [] START_FIELD [])
      (io.readlines (field_text a ++ [delimiter] ++ field_text r ++ [io.LF] ++ rest))).
  { destruct (field_text_head a (field_text r ++ [io.LF] ++ rest) delimiter eq_refl)
      as [d [t [E Hd]]].
    simpl app in *. rewrite E. simpl io.readlines.
    assert (Hl : Ascii.eqb d io.LF = false).
    { unfold is_newline in Hd. apply orb_false_iff in Hd. apply Hd. }
    rewrite Hl.
    assert (Hfirst : parse_process_char (buffered [] START_RECORD []) (Ch d)
                     = parse_process_char (buffered [] START_FIELD []) (Ch d)).
    { unfold parse_process_char. simpl state. rewrite Hd. reflexivity. }
    destruct (io.readlines t); simpl; rewrite Hfirst; reflexivity. }
  rewrite Hstart.
  destruct (read_field a [] ([delimiter] ++ field_text r ++ [io.LF] ++ rest))
    as [s1 [Hd1 E1]]; [discriminate|exact Ha|].
  rewrite E1. simpl app.
  rewrite Reader_char; [|reflexivity|].
  2:{ intros E. apply app_eq_nil in E. destruct E as [_ E]. discriminate. }
  rewrite (after_field_delimiter s1 [] a Hd1). cbn [bind].
  change ([] ++ [a]) with [a].
  destruct (read_field r [a] ([io.LF] ++ rest)) as [s2 [Hd2 E2]];
    [discriminate|exact Hr|].
  simpl app in E2. rewrite E2. rewrite Reader_LF.
  pose proof (after_field_LF s2 [a] r Hd2) as HLF.
  destruct (parse_process_char s2 (Ch io.LF)) as [s3|]; simpl in HLF; [|discriminate].
  cbn [bind]. rewrite HLF. reflexivity.
Qed.

End ReaderFacts.

Module ManifestFacts.
Import csv ReaderFacts.

Lemma eqb_str_refl (a : str) : Str.eqb a a = true.
Proof. apply eqb_str_eq. reflexivity. Qed.

Lemma contains_app (c : ascii) (a b : str) :
  Str.contains c (a ++ b) = Str.contains c a || Str.contains c b.
Proof. unfold Str.contains. apply existsb_app. Qed.

Lemma contains_false_iff (c : ascii) (x : str) :
  Str.contains c x = false <-> ~ In c x.
Proof.
  unfold Str.contains. split.
  - intros H Hin. assert (E : existsb (Ascii.eqb c) x = true).
    { apply existsb_exists. exists c. split; [exact Hin | apply Ascii.eqb_refl]. }
    congruence.
  - intros H. destruct (existsb (Ascii.eqb c) x) eqn:E; [|reflexivity].
    apply existsb_exists in E. destruct E as [d [Hin Hd]].
    apply Ascii.eqb_eq in Hd. subst d. contradiction.
Qed.

Lemma no_CR_copy_field (x : str) : no_CR x -> no_CR (copy_field x).
Proof.
  unfold no_CR. induction x as [|c x IH]; simpl; [reflexivity|].
  intros H. apply orb_false_iff in H. destruct H as [Hc Hx].
  destruct (Ascii.eqb c quotechar) eqn:Hq; simpl; rewrite Hc, (IH Hx);
    [apply Ascii.eqb_eq in Hq; subst c|]; reflexivity.
Qed.

Lemma no_CR_field_text (x : str) : no_CR x -> no_CR (field_text x).
Proof.
  intros H. unfold field_text. destruct (existsb special x); [|exact H].
  unfold no_CR. rewrite !contains_app, (no_CR_copy_field x H). reflexivity.
Qed.

Lemma translate_no_CR (u v : str) :
  no_CR u -> io.translate_newlines (u ++ v) = u ++ io.translate_newlines v.
Proof.
  unfold no_CR, Str.contains. induction u as [|c u IH]; [reflexivity|].
  cbn [existsb app io.translate_newlines].
  intros H. apply orb_false_iff in H. destruct H as [Hc Hu].
  rewrite Ascii.eqb_sym in Hc. rewrite Hc, (IH Hu). reflexivity.
Qed.

Lemma translate_CRLF (v : str) :
  io.translate_newlines (lineterminator ++ v) = io.LF :: io.translate_newlines v.
Proof. reflexivity. Qed.

(** The text of a row as the reader's file object gives it. *)
Lemma translate_row (row : str * str) (rest : str) :
  no_CR (fst row) -> no_CR (snd row) ->
  io.translate_newlines (row_text row ++ rest)
  = field_text (fst row) ++ [delimiter] ++ field_text (snd row) ++ [io.LF]
    ++ io.translate_newlines rest.
Proof.
  intros Ha Hr. unfold row_text. rewrite writerow_two.
  rewrite <- !app_assoc.
  rewrite (translate_no_CR _ _ (no_CR_field_text _ Ha)).
  rewrite (translate_no_CR [delimiter] _ eq_refl).
  rewrite (translate_no_CR _ _ (no_CR_field_text _ Hr)), translate_CRLF.
  reflexivity.
Qed.

(** The list comprehension over the written rows. *)
Lemma column0_rows (rows : list (str * str)) :
  Forall readable rows ->
  column0 (io.lines_r (concat (map row_text rows))) = Ok (map fst rows).
Proof.
  induction rows as [|row rows IH]; intros H.
  - rewrite column0_equation. reflexivity.
  - inversion H as [|x l [Ha [Hr [La Lr]]] Hrest]; subst.
    rewrite column0_equation. unfold io.lines_r. simpl map. simpl concat.
    rewrite (translate_row row _ Ha Hr).
    rewrite (read_record (fst row) (snd row) _ La Lr).
    change (getitem [fst row; snd row] 0) with (Ok (fst row)).
    fold (io.lines_r (concat (map row_text rows))). rewrite (IH Hrest).
    reflexivity.
Qed.

Lemma header_readable : readable (lit "absolute_path", lit "relative_path").
Proof.
  unfold readable, no_CR, within_limit, field_limit. simpl.
  repeat split; try reflexivity; lia.
Qed.

(** Loading a manifest of the header and the rows. *)
Lemma load_rows (fs : filesystem) (file : str) (rows : list (str * str)) :
  io.open_r fs file
  = Ok (writerow manifest_header ++ concat (map row_text rows)) ->
  Forall readable rows ->
  ImageIterator.read_column fs file = Ok (map fst rows).
Proof.
  intros Hfile Hrows. unfold ImageIterator.read_column.
  rewrite Hfile. cbn [bind]. unfold io.lines_r.
  destruct header_readable as [Ha [Hr [La Lr]]].
  change (writerow manifest_header)
    with (row_text (lit "absolute_path", lit "relative_path")).
  rewrite (translate_row _ _ Ha Hr).
  rewrite (read_record _ _ _ La Lr). cbn [bind].
  apply (column0_rows rows Hrows).
Qed.

Lemma write_ok (fs : filesystem) (f text f' : str) :
  io.write fs f text = Ok f' -> encodes fs text /\ f' = f ++ text.
Proof.
  unfold io.write, encodes. destruct (forallb (io.can_encode fs) text);
    [|discriminate].
  intros H. inversion H. split; reflexivity.
Qed.

Lemma write_encodes (fs : filesystem) (f text : str) :
  encodes fs text -> io.write fs f text = Ok (f ++ text).
Proof. unfold io.write, encodes. intros H. rewrite H. reflexivity. Qed.

Lemma write_header (fs : filesystem) (f : str) :
  io.write fs f (writerow manifest_header) = Ok (f ++ writerow manifest_header).
Proof. apply write_encodes. reflexivity. Qed.

Lemma write_rows_inv (cwd : str) (fs : filesystem) (file : str) (paths : list str) :
  forall f f',
    write_rows cwd fs file paths f = (f', Ok tt) ->
    exists rows,
      Forall2 (written_row cwd file) paths rows /\
      f' = f ++ concat (map row_text rows).
Proof.
  induction paths as [|p paths IH]; intros f f' H; simpl in H.
  - inversion H; subst. exists []. split; [constructor | symmetry; apply app_nil_r].
  - destruct (posixpath.relpath cwd p (posixpath.dirname file)) as [rel|e] eqn:Hrel;
      [|discriminate].
    destruct (io.write fs f (writerow [posixpath.abspath cwd p; rel])) as [f1|e]
      eqn:Hw; [|discriminate].
    apply write_ok in Hw. destruct Hw as [_ Hf1]. subst f1.
    apply IH in H. destruct H as [rows [Hrows Hf]].
    exists ((posixpath.abspath cwd p, rel) :: rows). split.
    + constructor; [split; [reflexivity | exact Hrel] | exact Hrows].
    + rewrite Hf. simpl. unfold row_text at 2. simpl. rewrite <- app_assoc.
      reflexivity.
Qed.


Lemma written_rows_abspath (cwd file : str) (paths : list str) (rows : list (str * str)) :
  Forall2 (written_row cwd file) paths rows ->
  map fst rows = map (posixpath.abspath cwd) paths.
Proof.
  induction 1 as [|p row paths rows [Ha Hr] Hrest IH]; simpl; [reflexivity|].
  rewrite Ha, IH. reflexivity.
Qed.

Lemma save_annotations_inv (cwd : str) (fs fs' : filesystem) (paths : list str)
    (file : str) :
  save_annotations cwd fs paths file = (fs', Ok tt) ->
  exists rows,
    Forall2 (written_row cwd file) paths rows /\
    fs' = io.close_w fs file (writerow manifest_header ++ concat (map row_text rows)).
Proof.
  unfold save_annotations. destruct (io.open_w fs file); [|discriminate].
  rewrite write_header. cbn [app].
  destruct (write_rows cwd fs file paths (writerow manifest_header)) as [f r] eqn:Hw.
  intros H. inversion H; subst. apply write_rows_inv in Hw.
  destruct Hw as [rows [Hrows Hf]]. exists rows. split; [exact Hrows|].
  rewrite Hf. reflexivity.
Qed.

Lemma save_annotations_opened (cwd : str) (fs fs' : filesystem) (paths : list str)
    (file : str) :
  save_annotations cwd fs paths file = (fs', Ok tt) ->
  io.open_w fs file = Ok tt.
Proof.
  unfold save_annotations. destruct (io.open_w fs file) as [[]|e];
    [reflexivity | discriminate].
Qed.

(** The manifest as [open] finds it after [save_annotations]. *)
Lemma open_r_close_w (fs : filesystem) (file content : str) :
  Str.contains io.NUL file = false ->
  io.open_r (io.close_w fs file content) file = Ok content.
Proof.
  intros Hn. unfold io.open_r, io.close_w. cbn [lookup].
  rewrite Hn, eqb_str_refl. reflexivity.
Qed.

Lemma save_annotations_read (cwd : str) (fs fs' : filesystem) (paths : list str)
    (file : str) :
  save_annotations cwd fs paths file = (fs', Ok tt) ->
  exists rows,
    Forall2 (written_row cwd file) paths rows /\
    io.open_r fs' file
    = Ok (writerow manifest_header ++ concat (map row_text rows)).
Proof.
  intros H. pose proof (open_w_no_NUL _ _ (save_annotations_opened _ _ _ _ _ H)) as Hn.
  destruct (save_annotations_inv _ _ _ _ _ H) as [rows [Hrows Hfs]].
  exists rows. split; [exact Hrows|]. subst fs'. apply open_r_close_w. exact Hn.
Qed.

End ManifestFacts.

Module PathChars.

Lemma split_chars (sep c : ascii) (s : str) :
  forall comp, In comp (Str.split sep s) -> In c comp -> In c s.
Proof.
  induction s as [|c0 s IH]; intros comp Hin Hc; simpl in Hin.
  - destruct Hin as [E|[]]. subst comp. exact Hc.
  - destruct (Ascii.eqb c0 sep).
    + destruct Hin as [E|Hin]; [subst comp; destruct Hc|].
      right. apply (IH comp Hin Hc).
    + destruct (Str.split sep s) as [|w ws] eqn:E.
      * destruct Hin as [E'|[]]. subst comp. destruct Hc as [Hc|[]].
        left. exact Hc.
      * destruct Hin as [E'|Hin].
        -- subst comp. destruct Hc as [Hc|Hc]; [left; exact Hc|].
           right. apply (IH w); [left; reflexivity | exact Hc].
        -- right. apply (IH comp); [right; exact Hin | exact Hc].
Qed.

Lemma join_step_chars (c : ascii) (path b : str) :
  In c (posixpath.join_step path b) -> c = posixpath.sep \/ In c path \/ In c b.
Proof.
  unfold posixpath.join_step. destruct (Str.startswith b [posixpath.sep]); [auto|].
  destruct (match path with [] => true | _ => Str.endswith path [posixpath.sep] end);
    intros H; apply in_app_or in H; destruct H as [H|H]; auto.
  simpl in H. destruct H as [H|H]; auto.
Qed.

Lemma join_chars (c : ascii) (p : list str) :
  forall a, In c (posixpath.join a p) ->
    c = posixpath.sep \/ In c a \/ exists b, In b p /\ In c b.
Proof.
  unfold posixpath.join. induction p as [|b p IH]; intros a H; simpl in H; [auto|].
  apply IH in H. destruct H as [H|[H|[b' [Hb Hc]]]]; [auto| |].
  - apply join_step_chars in H. destruct H as [H|[H|H]]; auto.
    right; right. exists b. split; [left; reflexivity | exact H].
  - right; right. exists b'. split; [right; exact Hb | exact Hc].
Qed.

Lemma in_skipn {A : Type} (x : A) (n : nat) (l : list A) :
  In x (skipn n l) -> In x l.
Proof.
  revert l. induction n as [|n IH]; intros [|a l] H; simpl in H; auto.
  right. apply IH. exact H.
Qed.

(** A character of the relative path is a dot, a slash, or a character of
    the absolute path. *)
Lemma relpath_chars (cwd p start rel : str) (c : ascii) :
  posixpath.relpath cwd p start = Ok rel -> In c rel ->
  c = "."%char \/ c = posixpath.sep \/ In c (posixpath.abspath cwd p).
Proof.
  unfold posixpath.relpath. destruct p as [|p0 p]; [discriminate|].
  set (A := posixpath.abspath cwd (p0 :: p)).
  destruct (posixpath.commonprefix _ _) as [pre|]; [|discriminate].
  set (rel_list := repeat posixpath.pardir _ ++ skipn _ _).
  assert (Hcomp : forall b, In b rel_list -> In c b -> c = "."%char \/ In c A).
  { intros b Hb Hc. apply in_app_or in Hb. destruct Hb as [Hb|Hb].
    - apply repeat_spec in Hb. subst b. left.
      simpl in Hc. destruct Hc as [Hc|[Hc|[]]]; symmetry; exact Hc.
    - right. apply in_skipn in Hb. unfold posixpath.nonempty_comps in Hb.
      apply filter_In in Hb. destruct Hb as [Hb _].
      apply (split_chars posixpath.sep c A b Hb Hc). }
  destruct rel_list as [|a rest]; intros H Hc; inversion H; subst rel.
  - simpl in Hc. destruct Hc as [Hc|[]]. left. symmetry. exact Hc.
  - apply join_chars in Hc. destruct Hc as [Hc|[Hc|[b [Hb Hc]]]]; [auto| |].
    + destruct (Hcomp a (or_introl eq_refl) Hc); auto.
    + destruct (Hcomp b (or_intror Hb) Hc); auto.
Qed.

End PathChars.

Import ReaderFacts ManifestFacts.

Lemma written_rows_readable (cwd file : str) (paths : list str)
    (rows : list (str * str)) :
  Forall2 (written_row cwd file) paths rows ->
  Forall (round_trips cwd file) paths ->
  Forall readable rows.
Proof.
  induction 1 as [|p row paths rows [Ha Hr] Hrest IH]; intros Hall; [constructor|].
  inversion Hall as [|x l [Hcr [La Lr]] Hall']; subst.
  constructor; [|apply IH; exact Hall'].
  unfold readable. rewrite Ha. repeat split; try assumption; [|apply Lr; exact Hr].
  apply contains_false_iff. intros Hin.
  destruct (PathChars.relpath_chars cwd p _ _ io.CR Hr Hin) as [E|[E|Hin']];
    try discriminate.
  apply contains_false_iff in Hcr. contradiction.
Qed.

(** C1, as the program has it.  When [save_annotations] has written the
    paths [image_paths] to the manifest, and for each of them the absolute
    path holds no carriage return and neither written path is longer than
    131072 characters, a fresh [ImageIterator] over the manifest returns the
    absolute paths of [image_paths], in order, one per call of [next], and
    raises [StopIteration] at the call after the last. *)
Theorem manifest_round_trip (cwd : str) (fs fs' : filesystem)
    (image_paths : list str) (annotation_file : str) :
  save_annotations cwd fs image_paths annotation_file = (fs', Ok tt) ->
  Forall (round_trips cwd annotation_file) image_paths ->
  exists it,
    __init__ fs' annotation_file = Ok it /\
    nexts (length image_paths + 1) it
    = (map Ok (map (posixpath.abspath cwd) image_paths) ++ [Raise StopIteration],
       at_index it (Z.of_nat (length image_paths))).
Proof.
  intros Hsave Hall.
  destruct (save_annotations_read cwd fs fs' image_paths annotation_file Hsave)
    as [rows [Hrows Hfs]].
  assert (Hload : ImageIterator.read_column fs' annotation_file
                  = Ok (map (posixpath.abspath cwd) image_paths)).
  { rewrite <- (written_rows_abspath cwd annotation_file image_paths rows Hrows).
    apply load_rows; [exact Hfs|].
    apply (written_rows_readable cwd annotation_file image_paths rows Hrows Hall). }
  exists {| annotation_file := annotation_file;
            image_paths := map (posixpath.abspath cwd) image_paths;
            current_index := 0 |}.
  split; [apply init_loaded; exact Hload|].
  set (it := {| annotation_file := annotation_file;
                image_paths := map (posixpath.abspath cwd) image_paths;
                current_index := 0 |}).
  assert (Hlen : length (ImageIterator.image_paths it) = length image_paths)
    by (simpl; apply length_map).
  rewrite <- Hlen at 1.
  rewrite (nexts_from (length (ImageIterator.image_paths it)) it);
    [| simpl; lia | unfold len; simpl; lia].
  simpl. f_equal. unfold len. rewrite Hlen. unfold at_index. simpl. f_equal. lia.
Qed.

Lemma manifest_round_trip_witness :
  exists it,
    __init__ (fst (save_annotations (lit "/w") empty_fs sample_paths
                                    (lit "out/manifest.csv")))
             (lit "out/manifest.csv") = Ok it /\
    nexts 3 it
    = ([Ok (lit "/w/imgs/a.jpg"); Ok (lit "/w/imgs/b,c.png"); Raise StopIteration],
       at_index it 2).
Proof.
  apply (manifest_round_trip (lit "/w") empty_fs _ sample_paths (lit "out/manifest.csv")).
  - vm_compute. reflexivity.
  - repeat constructor; try (vm_compute; discriminate);
      intros rel H; vm_compute in H; inversion H; vm_compute; discriminate.
Defined.

(** C1 as stated fails: a path longer than the reader's field limit is
    written, and the constructor then raises [csv.Error] instead of loading
    it. *)
Lemma round_trip_fails_beyond_field_limit :
  snd (save_annotations (lit "/w") empty_fs [long_name] (lit "manifest.csv")) = Ok tt /\
  __init__ (fst (save_annotations (lit "/w") empty_fs [long_name] (lit "manifest.csv")))
           (lit "manifest.csv")
  = Raise csv_Error.
Proof. vm_compute. split; reflexivity. Qed.

(** The file is written with [newline=''] and read without it: a carriage
    return in a path comes back as a line feed. *)
Lemma carriage_return_comes_back_as_line_feed :
  let p := lit "x" ++ [io.CR] ++ lit "y.png" in
  let saved := save_annotations (lit "/w") empty_fs [p] (lit "manifest.csv") in
  snd saved = Ok tt /\
  posixpath.abspath (lit "/w") p = lit "/w/x" ++ [io.CR] ++ lit "y.png" /\
  __init__ (fst saved) (lit "manifest.csv")
  = Ok {| annotation_file := lit "manifest.csv";
          image_paths := [lit "/w/x" ++ [io.LF] ++ lit "y.png"];
          current_index := 0 |}.
Proof. vm_compute. repeat split; reflexivity. Qed.

(** ** Paths *)

Module PathFacts.
Import posixpath.

Lemma eqb_str_sym (a b : str) : Str.eqb a b = Str.eqb b a.
Proof.
  destruct (Str.eqb a b) eqn:E.
  - apply eqb_str_eq in E. subst. symmetry. apply eqb_str_eq. reflexivity.
  - destruct (Str.eqb b a) eqn:E'; [|reflexivity].
    apply eqb_str_eq in E'. subst. rewrite (proj2 (eqb_str_eq a a) eq_refl) in E.
    discriminate.
Qed.

Lemma nat_of_ascii_inj (x y : ascii) : nat_of_ascii x = nat_of_ascii y -> x = y.
Proof.
  intros H. rewrite <- (ascii_nat_embedding x), <- (ascii_nat_embedding y), H.
  reflexivity.
Qed.

Lemma str_ltb_asym (a : str) : forall b, str_ltb a b = true -> str_ltb b a = false.
Proof.
  induction a as [|x a IH]; intros [|y b] H; simpl in *; try discriminate;
    try reflexivity.
  rewrite (Ascii.eqb_sym y x). destruct (Ascii.eqb x y); [apply IH; exact H|].
  apply Nat.ltb_lt in H. apply Nat.ltb_ge. lia.
Qed.

Lemma str_ltb_total (a : str) :
  forall b, str_ltb a b = false -> str_ltb b a = false -> a = b.
Proof.
  induction a as [|x a IH]; intros [|y b] H1 H2; simpl in *; try discriminate;
    try reflexivity.
  rewrite (Ascii.eqb_sym y x) in H2. destruct (Ascii.eqb x y) eqn:E.
  - apply Ascii.eqb_eq in E. subst y. f_equal. apply IH; assumption.
  - apply Nat.ltb_ge in H1. apply Nat.ltb_ge in H2.
    assert (Hxy : x = y) by (apply nat_of_ascii_inj; lia).
    subst y. rewrite Ascii.eqb_refl in E. discriminate.
Qed.

Lemma list_ltb_asym (a : list str) :
  forall b, list_ltb a b = true -> list_ltb b a = false.
Proof.
  induction a as [|x a IH]; intros [|y b] H; simpl in *; try discriminate;
    try reflexivity.
  rewrite (eqb_str_sym y x). destruct (Str.eqb x y); [apply IH; exact H|].
  apply str_ltb_asym. exact H.
Qed.

Lemma list_ltb_total (a : list str) :
  forall b, list_ltb a b = false -> list_ltb b a = false -> a = b.
Proof.
  induction a as [|x a IH]; intros [|y b] H1 H2; simpl in *; try discriminate;
    try reflexivity.
  rewrite (eqb_str_sym y x) in H2. destruct (Str.eqb x y) eqn:E.
  - apply eqb_str_eq in E. subst y. f_equal. apply IH; assumption.
  - assert (Hxy : x = y) by (apply str_ltb_total; assumption).
    subst y. rewrite (proj2 (eqb_str_eq x x) eq_refl) in E. discriminate.
Qed.

Lemma lcp_sym (a : list str) : forall b, lcp a b = lcp b a.
Proof.
  induction a as [|x a IH]; intros [|y b]; simpl; try reflexivity.
  rewrite (eqb_str_sym y x). destruct (Str.eqb x y) eqn:E; [|reflexivity].
  apply eqb_str_eq in E. subst y. rewrite IH. reflexivity.
Qed.

Lemma lcp_same (a : list str) : lcp a a = a.
Proof.
  induction a as [|x a IH]; simpl; [reflexivity|].
  rewrite (proj2 (eqb_str_eq x x) eq_refl), IH. reflexivity.
Qed.

(** The scan succeeds when its second list is not below its first. *)
Lemma scan_lcp (s1 : list str) :
  forall s2, list_ltb s2 s1 = false -> commonprefix_scan s1 s2 = Some (lcp s1 s2).
Proof.
  induction s1 as [|c s1 IH]; intros [|d s2] H; simpl in *; try reflexivity;
    try discriminate.
  rewrite (eqb_str_sym d c) in H. destruct (Str.eqb c d); simpl; [|reflexivity].
  rewrite (IH s2 H). reflexivity.
Qed.

(** [commonprefix] of two lists is their longest common prefix; it never
    raises. *)
Lemma commonprefix_lcp (a b : list str) : commonprefix a b = Some (lcp a b).
Proof.
  unfold commonprefix, min2, max2.
  destruct (list_ltb b a) eqn:Hba.
  - rewrite (list_ltb_asym b a Hba). rewrite (lcp_sym a b).
    apply scan_lcp. apply (list_ltb_asym b a Hba).
  - destruct (list_ltb a b) eqn:Hab.
    + apply scan_lcp. exact Hba.
    + assert (E : a = b) by (apply list_ltb_total; assumption).
      subst b. apply scan_lcp. exact Hba.
Qed.

(** [relpath] raises on the empty path only. *)
Lemma relpath_total (cwd p start : str) :
  p <> [] -> relpath cwd p start = Ok (rel_text (rel_list cwd p start)).
Proof.
  intros Hp. unfold relpath. destruct p as [|c p]; [congruence|].
  rewrite commonprefix_lcp. unfold rel_text, rel_list.
  destruct (repeat pardir _ ++ skipn _ _); reflexivity.
Qed.

Lemma relpath_empty (cwd start : str) : relpath cwd [] start = Raise ValueError.
Proof. reflexivity. Qed.

End PathFacts.

Import PathFacts.

(** ** The format of the manifest *)

Lemma rows_as_lines (rows : list (str * str)) :
  concat (map row_text rows)
  = concat (map (fun line => line ++ csv.lineterminator) (map manifest_line rows)).
Proof.
  induction rows as [|row rows IH]; [reflexivity|].
  cbn [map concat]. rewrite <- IH. unfold row_text at 1. rewrite writerow_two.
  unfold manifest_line. rewrite <- !app_assoc. reflexivity.
Qed.

Lemma rows_as_format (rows : list (str * str)) :
  csv.writerow manifest_header ++ concat (map row_text rows)
  = manifest_format csv.lineterminator rows.
Proof.
  unfold manifest_format. cbn [map concat]. rewrite <- rows_as_lines.
  reflexivity.
Qed.





(** ** Normalised paths *)

Module NormFacts.
Import posixpath.

Lemma eqb_str_neq (a b : str) : a <> b -> Str.eqb a b = false.
Proof.
  intros H. destruct (Str.eqb a b) eqn:E; [|reflexivity].
  apply eqb_str_eq in E. contradiction.
Qed.

Lemma split_not_nil (c : ascii) (s : str) : Str.split c s <> [].
Proof.
  destruct s as [|x s]; simpl; [discriminate|].
  destruct (Ascii.eqb x c); [discriminate|].
  destruct (Str.split c s); discriminate.
Qed.

Lemma split_app_sep (c : ascii) (a b : str) :
  Str.split c (a ++ c :: b) = Str.split c a ++ Str.split c b.
Proof.
  induction a as [|x a IH]; cbn [app Str.split].
  - rewrite Ascii.eqb_refl. reflexivity.
  - destruct (Ascii.eqb x c); [rewrite IH; reflexivity|].
    rewrite IH. destruct (Str.split c a) as [|w ws] eqn:E.
    + exfalso. apply (split_not_nil c a E).
    + reflexivity.
Qed.

Lemma split_nosep (c : ascii) (x : str) : ~ In c x -> Str.split c x = [x].
Proof.
  induction x as [|y x IH]; intros H; cbn [Str.split]; [reflexivity|].
  destruct (Ascii.eqb y c) eqn:E.
  - apply Ascii.eqb_eq in E. subst y. exfalso. apply H. left. reflexivity.
  - rewrite IH; [reflexivity|]. intros Hin. apply H. right. exact Hin.
Qed.

Lemma split_no_sep (c : ascii) (s : str) :
  Forall (fun comp => ~ In c comp) (Str.split c s).
Proof.
  induction s as [|x s IH]; cbn [Str.split].
  - constructor; [intros [] | constructor].
  - destruct (Ascii.eqb x c) eqn:E; [constructor; [intros [] | exact IH]|].
    destruct (Str.split c s) as [|w ws]; [constructor; [|constructor]|].
    + intros [H|[]]. subst x. rewrite Ascii.eqb_refl in E. discriminate.
    + inversion IH as [|w' ws' Hw Hws]; subst. constructor; [|exact Hws].
      intros [H|H]; [subst x; rewrite Ascii.eqb_refl in E; discriminate|].
      exact (Hw H).
Qed.

Lemma strjoin_cons (sp a b : str) (rest : list str) :
  Str.join sp (a :: b :: rest) = a ++ sp ++ Str.join sp (b :: rest).
Proof. reflexivity. Qed.

Lemma split_join (comps : list str) :
  comps <> [] -> Forall (fun comp => ~ In sep comp) comps ->
  Str.split sep (Str.join [sep] comps) = comps.
Proof.
  induction comps as [|a comps IH]; intros Hne H; [congruence|].
  inversion H as [|a' l Ha Hrest]; subst.
  destruct comps as [|b rest].
  - apply split_nosep. exact Ha.
  - rewrite strjoin_cons. cbn [app]. rewrite split_app_sep.
    rewrite (split_nosep sep a Ha), IH; [reflexivity|discriminate|exact Hrest].
Qed.

Lemma step_any (s : Z) (N : list str) (comp : str) :
  s <> 0%Z -> normpath_step s N comp = step N comp.
Proof.
  intros Hs. unfold step, normpath_step.
  replace (s =? 0)%Z with false by (symmetry; apply Z.eqb_neq; exact Hs).
  reflexivity.
Qed.

Lemma fold_step_any (s : Z) (comps : list str) :
  s <> 0%Z ->
  forall N, fold_left (normpath_step s) comps N = fold_left step comps N.
Proof.
  intros Hs. induction comps as [|c comps IH]; intros N; simpl; [reflexivity|].
  rewrite (step_any s N c Hs). apply IH.
Qed.

Lemma step_empty (N : list str) : step N [] = N.
Proof. reflexivity. Qed.

Lemma step_curdir (N : list str) : step N curdir = N.
Proof. reflexivity. Qed.

Lemma step_clean (N : list str) (comp : str) : clean comp -> step N comp = N ++ [comp].
Proof.
  intros [H1 [H2 [H3 _]]]. unfold step, normpath_step.
  rewrite (eqb_str_neq _ _ H1), (eqb_str_neq _ _ H2), (eqb_str_neq _ _ H3).
  reflexivity.
Qed.

Lemma last_in {A : Type} (l : list A) (d : A) : l <> [] -> In (last l d) l.
Proof.
  induction l as [|a l IH]; intros H; [congruence|].
  destruct l as [|b l]; [left; reflexivity|].
  right. apply IH. discriminate.
Qed.

Lemma step_pardir (N : list str) : Forall clean N -> step N pardir = removelast N.
Proof.
  intros H. unfold step, normpath_step.
  change (Str.eqb pardir [] || Str.eqb pardir curdir) with false.
  change (Str.eqb pardir pardir) with true. cbn [negb orb andb Z.eqb].
  destruct N as [|a N]; [reflexivity|].
  assert (Hl : clean (last (a :: N) [])).
  { rewrite Forall_forall in H. apply H. apply last_in. discriminate. }
  destruct Hl as [_ [_ [Hl _]]]. rewrite (eqb_str_neq _ _ Hl). reflexivity.
Qed.

Lemma Forall_removelast {A : Type} (P : A -> Prop) (l : list A) :
  Forall P l -> Forall P (removelast l).
Proof.
  induction l as [|a l IH]; intros H; [constructor|].
  inversion H; subst. destruct l as [|b l]; [constructor|].
  change (removelast (a :: b :: l)) with (a :: removelast (b :: l)).
  constructor; [assumption | apply IH; assumption].
Qed.

Lemma step_preserves_clean (N : list str) (comp : str) :
  ~ In sep comp -> Forall clean N -> Forall clean (step N comp).
Proof.
  intros Hc HN.
  destruct (Str.eqb comp []) eqn:E1.
  { apply eqb_str_eq in E1. subst comp. exact HN. }
  destruct (Str.eqb comp curdir) eqn:E2.
  { apply eqb_str_eq in E2. subst comp. exact HN. }
  destruct (Str.eqb comp pardir) eqn:E3.
  { apply eqb_str_eq in E3. subst comp. rewrite (step_pardir N HN).
    apply Forall_removelast. exact HN. }
  assert (Hclean : clean comp).
  { repeat split; try exact Hc; intros E; subst comp;
      [rewrite (proj2 (eqb_str_eq _ _) eq_refl) in E1
      |rewrite (proj2 (eqb_str_eq _ _) eq_refl) in E2
      |rewrite (proj2 (eqb_str_eq _ _) eq_refl) in E3]; discriminate. }
  rewrite (step_clean N comp Hclean). apply Forall_app. split; [exact HN|].
  constructor; [exact Hclean | constructor].
Qed.

Lemma fold_preserves_clean (comps : list str) :
  Forall (fun comp => ~ In sep comp) comps ->
  forall N, Forall clean N -> Forall clean (fold_left step comps N).
Proof.
  induction 1 as [|c comps Hc Hrest IH]; intros N HN; simpl; [exact HN|].
  apply IH. apply step_preserves_clean; assumption.
Qed.

Lemma fold_clean_comps (cs : list str) :
  Forall clean cs -> forall N, fold_left step cs N = N ++ cs.
Proof.
  induction 1 as [|c cs Hc Hrest IH]; intros N; simpl.
  - symmetry. apply app_nil_r.
  - rewrite (step_clean N c Hc), IH, <- app_assoc. reflexivity.
Qed.


End NormFacts.

Module AbsFacts.
Import posixpath PathFacts NormFacts.

Lemma abspath_full (cwd p : str) : abspath cwd p = normpath (full cwd p).
Proof. reflexivity. Qed.

Lemma isabs_cons (x : ascii) (t : str) : isabs (x :: t) = Ascii.eqb x sep.
Proof. unfold isabs. cbn [Str.startswith]. apply andb_true_r. Qed.

Lemma isabs_inv (F : str) : isabs F = true -> exists t, F = sep :: t.
Proof.
  destruct F as [|x t]; [discriminate|]. rewrite isabs_cons. intros H.
  apply Ascii.eqb_eq in H. subst x. exists t. reflexivity.
Qed.

Lemma initial_slashes_abs (F : str) :
  isabs F = true -> initial_slashes_of F = 1%Z \/ initial_slashes_of F = 2%Z.
Proof.
  intros H. unfold initial_slashes_of. unfold isabs in H. rewrite H.
  destruct (Str.startswith F [sep; sep] && negb (Str.startswith F [sep; sep; sep]));
    auto.
Qed.

Lemma comps_of_clean (F : str) : Forall clean (comps_of F).
Proof.
  unfold comps_of. apply fold_preserves_clean; [apply split_no_sep | constructor].
Qed.

(** [normpath] of an absolute path: its one or two slashes, then the
    components it keeps, joined. *)
Lemma normpath_abs (F : str) :
  isabs F = true ->
  normpath F
  = Str.times sep (Z.to_nat (initial_slashes_of F)) ++ Str.join [sep] (comps_of F).
Proof.
  intros H. destruct (isabs_inv F H) as [t E].
  assert (Hs := initial_slashes_abs F H). subst F.
  unfold normpath, comps_of.
  destruct Hs as [Hs|Hs]; rewrite Hs; rewrite fold_step_any by discriminate;
    reflexivity.
Qed.

Lemma nonempty_comps_sep (t : str) : nonempty_comps (sep :: t) = nonempty_comps t.
Proof.
  unfold nonempty_comps. cbn [Str.split]. rewrite Ascii.eqb_refl. reflexivity.
Qed.

Lemma clean_nice (comp : str) : clean comp -> nice comp.
Proof. intros [H1 [_ [_ H4]]]. split; assumption. Qed.

Lemma nonempty_comps_join (N : list str) :
  Forall nice N -> nonempty_comps (Str.join [sep] N) = N.
Proof.
  intros H. destruct N as [|a N]; [reflexivity|].
  unfold nonempty_comps. rewrite split_join; [|discriminate|].
  - induction H as [|c l [Hc _] Hrest IH]; [reflexivity|].
    cbn [filter]. rewrite (eqb_str_neq c [] Hc). cbn [negb]. rewrite IH. reflexivity.
  - apply Forall_forall. intros c Hc. rewrite Forall_forall in H.
    apply (H c Hc).
Qed.

Lemma nonempty_comps_abspath (cwd p : str) :
  isabs (full cwd p) = true ->
  nonempty_comps (abspath cwd p) = comps_of (full cwd p).
Proof.
  intros H. rewrite abspath_full, (normpath_abs _ H).
  assert (Hn : Forall nice (comps_of (full cwd p))).
  { apply Forall_forall. intros c Hc. apply clean_nice.
    pose proof (comps_of_clean (full cwd p)) as Hcl. rewrite Forall_forall in Hcl.
    apply (Hcl c Hc). }
  destruct (initial_slashes_abs _ H) as [E|E]; rewrite E;
    change (Z.to_nat 1) with 1%nat; change (Z.to_nat 2) with 2%nat;
    cbn [Str.times repeat app]; rewrite !nonempty_comps_sep;
    apply nonempty_comps_join; exact Hn.
Qed.

Lemma endswith_app (path b : str) :
  b <> [] -> Str.endswith (path ++ b) [sep] = Str.endswith b [sep].
Proof.
  intros Hb. unfold Str.endswith. rewrite rev_app_distr.
  destruct (rev b) as [|x rb] eqn:E.
  - exfalso. apply Hb. rewrite <- (rev_involutive b), E. reflexivity.
  - reflexivity.
Qed.

Lemma endswith_nosep (a : str) : nice a -> Str.endswith a [sep] = false.
Proof.
  intros [Hne Hs]. unfold Str.endswith. destruct (rev a) as [|x ra] eqn:E.
  - reflexivity.
  - cbn [rev app Str.startswith]. rewrite andb_true_r.
    destruct (Ascii.eqb x sep) eqn:Hx; [|reflexivity].
    apply Ascii.eqb_eq in Hx. subst x. exfalso. apply Hs.
    apply in_rev. rewrite E. left. reflexivity.
Qed.

Lemma nice_not_abs (a : str) : nice a -> isabs a = false.
Proof.
  intros [Hne Hs]. destruct a as [|x a]; [congruence|]. rewrite isabs_cons.
  destruct (Ascii.eqb x sep) eqn:Hx; [|reflexivity].
  apply Ascii.eqb_eq in Hx. subst x. exfalso. apply Hs. left. reflexivity.
Qed.

Lemma join_step_rel (path b : str) :
  isabs b = false ->
  join_step path b = if tail_sep path then path ++ b else path ++ sep :: b.
Proof.
  intros Hb. unfold join_step, tail_sep. unfold isabs in Hb. rewrite Hb.
  reflexivity.
Qed.

Lemma tail_sep_app (path b : str) : b <> [] -> tail_sep (path ++ b) = tail_sep b.
Proof.
  intros Hb. unfold tail_sep. destruct (path ++ b) as [|x t] eqn:E.
  - apply app_eq_nil in E. destruct E. contradiction.
  - rewrite <- E. rewrite (endswith_app path b Hb). destruct b; [congruence|].
    reflexivity.
Qed.

(** [join(a, *p)] of nice components is [a], then a slash and a component
    for each. *)
Lemma join_nice (l : list str) :
  Forall nice l ->
  forall path, path <> [] -> Str.endswith path [sep] = false ->
    join path l = path ++ concat (map (cons sep) l).
Proof.
  unfold join. induction 1 as [|b l Hb Hrest IH]; intros path Hne Hend; simpl.
  - symmetry. apply app_nil_r.
  - rewrite (join_step_rel path b (nice_not_abs b Hb)).
    assert (Ht : tail_sep path = false)
      by (unfold tail_sep; destruct path; [congruence | exact Hend]).
    rewrite Ht. rewrite IH.
    + rewrite <- app_assoc. reflexivity.
    + intros E. apply app_eq_nil in E. destruct E as [_ E]. discriminate.
    + change (sep :: b) with ([sep] ++ b). rewrite app_assoc.
      rewrite (endswith_app _ b (proj1 Hb)). apply endswith_nosep. exact Hb.
Qed.

Lemma strjoin_concat (a : str) (l : list str) :
  Str.join [sep] (a :: l) = a ++ concat (map (cons sep) l).
Proof.
  revert a. induction l as [|b l IH]; intros a.
  - simpl. symmetry. apply app_nil_r.
  - rewrite strjoin_cons, IH. reflexivity.
Qed.

Lemma rel_text_join (l : list str) :
  Forall nice l ->
  rel_text l <> [] /\ isabs (rel_text l) = false /\
  forall N, fold_left step (Str.split sep (rel_text l)) N = fold_left step l N.
Proof.
  intros H. destruct l as [|a l].
  - split; [discriminate|]. split; reflexivity.
  - inversion H as [|a' l' Ha Hl]; subst.
    assert (E : rel_text (a :: l) = Str.join [sep] (a :: l)).
    { unfold rel_text. rewrite (join_nice l Hl a (proj1 Ha) (endswith_nosep a Ha)).
      symmetry. apply strjoin_concat. }
    rewrite E. split; [|split].
    + rewrite strjoin_concat. intros E'. apply app_eq_nil in E'.
      destruct E' as [E' _]. apply (proj1 Ha). exact E'.
    + rewrite strjoin_concat. destruct a as [|x a]; [destruct Ha; congruence|].
      cbn [app]. rewrite isabs_cons.
      pose proof (nice_not_abs (x :: a) Ha) as Hx. rewrite isabs_cons in Hx.
      exact Hx.
    + intros N. rewrite split_join; [reflexivity|discriminate|].
      apply Forall_forall. intros c Hc. rewrite Forall_forall in H.
      apply (H c Hc).
Qed.

End AbsFacts.

Module RelFacts.
Import posixpath PathFacts NormFacts AbsFacts.

Lemma full_isabs (cwd p : str) : isabs cwd = true -> isabs (full cwd p) = true.
Proof.
  intros Hc. unfold full. destruct (isabs p) eqn:Hp; [exact Hp|].
  change (join cwd [p]) with (join_step cwd p). rewrite (join_step_rel cwd p Hp).
  destruct (isabs_inv cwd Hc) as [t E]. subst cwd.
  destruct (tail_sep (sep :: t)); cbn [app]; apply isabs_cons.
Qed.








Lemma rel_list_nice (cwd p D : str) :
  isabs cwd = true -> Forall nice (rel_list cwd p D).
Proof.
  intros Hc. unfold rel_list. apply Forall_app. split.
  - apply Forall_forall. intros c Hin. apply repeat_spec in Hin. subst c.
    split; [discriminate|]. intros [H|[H|[]]]; discriminate.
  - rewrite (nonempty_comps_abspath cwd p (full_isabs cwd p Hc)).
    apply Forall_forall. intros c Hin. apply clean_nice.
    pose proof (comps_of_clean (full cwd p)) as Hcl. rewrite Forall_forall in Hcl.
    apply Hcl. apply (PathChars.in_skipn c _ _ Hin).
Qed.



Lemma strjoin_not_abs (N : list str) :
  Forall clean N -> Str.startswith (Str.join [sep] N) [sep] = false.
Proof.
  intros H. destruct N as [|a N]; [reflexivity|].
  inversion H as [|a' N' Ha HN]; subst. rewrite strjoin_concat.
  pose proof (nice_not_abs a (clean_nice a Ha)) as Hx.
  destruct a as [|x a]; [destruct Ha; congruence|]. exact Hx.
Qed.

(** [normpath] keeps the one or two slashes an absolute path begins with. *)
Lemma initial_slashes_normpath (F : str) :
  isabs F = true -> initial_slashes_of (normpath F) = initial_slashes_of F.
Proof.
  intros H. rewrite (normpath_abs F H).
  pose proof (strjoin_not_abs (comps_of F) (comps_of_clean F)) as Hj.
  destruct (Str.join [sep] (comps_of F)) as [|x t].
  - destruct (initial_slashes_abs F H) as [E|E]; rewrite E; reflexivity.
  - change (Str.startswith (x :: t) [sep]) with (isabs (x :: t)) in Hj.
    rewrite isabs_cons in Hj.
    destruct (initial_slashes_abs F H) as [E|E]; rewrite E;
      change (Z.to_nat 1) with 1%nat; change (Z.to_nat 2) with 2%nat;
      cbn [Str.times repeat app]; unfold initial_slashes_of;
      cbn [Str.startswith]; rewrite Hj; reflexivity.
Qed.

End RelFacts.

Import AbsFacts RelFacts.

(** ** The relative path of a row *)





(** * Further properties *)

(** ** What the reader makes of the writer's text *)

Module ReadBack.
Import csv.

Lemma translate_nil : io.translate_newlines [] = [].
Proof. reflexivity. Qed.

Lemma translate_other (c : ascii) (s : str) :
  Ascii.eqb c io.CR = false ->
  io.translate_newlines (c :: s) = c :: io.translate_newlines s.
Proof. intros H. cbn [io.translate_newlines]. rewrite H. reflexivity. Qed.

Lemma translate_CR_end (c : ascii) :
  Ascii.eqb c io.CR = true -> io.translate_newlines [c] = [io.LF].
Proof. intros H. cbn [io.translate_newlines]. rewrite H. reflexivity. Qed.

Lemma translate_CR_cons (c d : ascii) (s : str) :
  Ascii.eqb c io.CR = true ->
  io.translate_newlines (c :: d :: s)
  = if Ascii.eqb d io.LF then io.translate_newlines (d :: s)
    else io.LF :: io.translate_newlines (d :: s).
Proof.
  intros H. change (io.translate_newlines (c :: d :: s))
    with (if Ascii.eqb c io.CR
          then if Ascii.eqb d io.LF then io.translate_newlines (d :: s)
               else io.LF :: io.translate_newlines (d :: s)
          else c :: io.translate_newlines (d :: s)).
  rewrite H. reflexivity.
Qed.

(** The text after a point that is not before a line feed is translated on
    its own. *)
Lemma translate_app (u : str) :
  forall v,
    match v with d :: _ => Ascii.eqb d io.LF = false | [] => True end ->
    io.translate_newlines (u ++ v)
    = io.translate_newlines u ++ io.translate_newlines v.
Proof.
  induction u as [|c u IH]; intros v Hv; [reflexivity|].
  destruct (Ascii.eqb c io.CR) eqn:Hc.
  - destruct u as [|d u].
    + rewrite (translate_CR_end c Hc). destruct v as [|d v].
      * apply (translate_CR_end c Hc).
      * cbn [app]. rewrite (translate_CR_cons c d v Hc), Hv. reflexivity.
    + change ((c :: d :: u) ++ v) with (c :: d :: (u ++ v)).
      rewrite !(translate_CR_cons c d _ Hc).
      change (d :: (u ++ v)) with ((d :: u) ++ v).
      rewrite (IH v Hv). destruct (Ascii.eqb d io.LF); reflexivity.
  - cbn [app]. rewrite !(translate_other c _ Hc), (IH v Hv). reflexivity.
Qed.

Lemma copy_field_head (d : ascii) (x : str) :
  exists t, copy_field (d :: x) = d :: t.
Proof.
  cbn [copy_field]. destruct (Ascii.eqb d quotechar) eqn:E.
  - apply Ascii.eqb_eq in E. subst d. eexists. reflexivity.
  - eexists. reflexivity.
Qed.

(** Doubling the quotes and translating the newlines commute. *)
Lemma translate_copy_field (x : str) :
  io.translate_newlines (copy_field x) = copy_field (io.translate_newlines x).
Proof.
  induction x as [|c x IH]; [reflexivity|].
  destruct (Ascii.eqb c io.CR) eqn:Hc.
  - assert (Hq : Ascii.eqb c quotechar = false).
    { apply Ascii.eqb_eq in Hc. subst c. reflexivity. }
    cbn [copy_field]. rewrite Hq.
    destruct x as [|d x].
    + cbn [copy_field]. rewrite (translate_CR_end c Hc). reflexivity.
    + destruct (copy_field_head d x) as [t Et]. rewrite Et.
      rewrite !(translate_CR_cons c d _ Hc). rewrite <- Et, IH.
      destruct (Ascii.eqb d io.LF); [reflexivity|].
      cbn [copy_field]. reflexivity.
  - rewrite (translate_other c x Hc). cbn [copy_field].
    destruct (Ascii.eqb c quotechar) eqn:Hq.
    + apply Ascii.eqb_eq in Hq. subst c.
      rewrite !(translate_other quotechar _ eq_refl), IH. reflexivity.
    + rewrite (translate_other c _ Hc), IH. reflexivity.
Qed.

Lemma special_CR (c : ascii) : Ascii.eqb c io.CR = true -> special c = true.
Proof. intros H. apply Ascii.eqb_eq in H. subst c. reflexivity. Qed.

Lemma translate_head_LF (d : ascii) (x : str) :
  Ascii.eqb d io.LF = true ->
  exists t, io.translate_newlines (d :: x) = io.LF :: t.
Proof.
  intros H. apply Ascii.eqb_eq in H. subst d.
  rewrite (translate_other io.LF x eq_refl). eexists. reflexivity.
Qed.

(** A field that needs quotes still needs them as read. *)
Lemma special_as_read (x : str) :
  existsb special x = true -> existsb special (as_read x) = true.
Proof.
  unfold as_read. induction x as [|c x IH]; [discriminate|].
  intros H. destruct (Ascii.eqb c io.CR) eqn:Hc.
  - destruct x as [|d x].
    + rewrite (translate_CR_end c Hc). reflexivity.
    + rewrite (translate_CR_cons c d x Hc).
      destruct (Ascii.eqb d io.LF) eqn:Hd; [|reflexivity].
      destruct (translate_head_LF d x Hd) as [t Et]. rewrite Et. reflexivity.
  - rewrite (translate_other c x Hc). cbn [existsb] in *.
    destruct (special c); [reflexivity|]. apply IH. exact H.
Qed.

Lemma plain_as_read (x : str) : existsb special x = false -> as_read x = x.
Proof.
  intros H. unfold as_read. induction x as [|c x IH]; [reflexivity|].
  cbn [existsb] in H. apply orb_false_iff in H. destruct H as [Hc Hx].
  destruct (special_false c Hc) as [_ [_ [_ [_ Hcr]]]].
  rewrite (translate_other c x Hcr), (IH Hx). reflexivity.
Qed.

(** The text of a field, as read, is the text of the field as read. *)
Lemma translate_field (x rest : str) :
  io.translate_newlines (field_text x ++ rest)
  = field_text (as_read x) ++ io.translate_newlines rest.
Proof.
  unfold field_text at 1. destruct (existsb special x) eqn:Hs.
  - unfold field_text. rewrite (special_as_read x Hs).
    rewrite <- !app_assoc. cbn [app].
    rewrite (translate_other quotechar _ eq_refl).
    rewrite (translate_app (copy_field x) (quotechar :: rest) eq_refl).
    rewrite translate_copy_field, (translate_other quotechar rest eq_refl).
    reflexivity.
  - rewrite (plain_as_read x Hs). unfold field_text. rewrite Hs.
    apply translate_no_CR. unfold no_CR, Str.contains.
    clear rest. induction x as [|c x IH]; [reflexivity|].
    cbn [existsb] in *. apply orb_false_iff in Hs. destruct Hs as [Hc Hx].
    destruct (special_false c Hc) as [_ [_ [_ [_ Hcr]]]].
    rewrite Ascii.eqb_sym, Hcr. apply IH. exact Hx.
Qed.

(** The text of a row as the reader's file object gives it, whatever its
    characters. *)
Lemma translate_any_row (row : str * str) (rest : str) :
  io.translate_newlines (row_text row ++ rest)
  = field_text (as_read (fst row)) ++ [delimiter] ++ field_text (as_read (snd row))
    ++ [io.LF] ++ io.translate_newlines rest.
Proof.
  unfold row_text. rewrite writerow_two. rewrite <- !app_assoc.
  rewrite translate_field. cbn [app].
  rewrite (translate_other delimiter _ eq_refl), translate_field.
  rewrite translate_CRLF. reflexivity.
Qed.

(** The list comprehension over rows that fit. *)
Lemma column0_any_rows (rows : list (str * str)) :
  Forall fits rows ->
  column0 (io.lines_r (concat (map row_text rows)))
  = Ok (map (fun row => as_read (fst row)) rows).
Proof.
  induction rows as [|row rows IH]; intros H.
  - rewrite column0_equation. reflexivity.
  - inversion H as [|x l [La Lr] Hrest]; subst.
    rewrite column0_equation. unfold io.lines_r. cbn [map concat].
    rewrite (translate_any_row row _).
    rewrite (read_record _ _ _ La Lr).
    change (getitem [as_read (fst row); as_read (snd row)] 0)
      with (Ok (as_read (fst row))).
    fold (io.lines_r (concat (map row_text rows))). rewrite (IH Hrest).
    reflexivity.
Qed.

(** Loading a manifest of any first row and then rows that fit. *)
Lemma load_any_rows (fs : filesystem) (file : str) (header : str * str)
    (rows : list (str * str)) :
  io.open_r fs file = Ok (row_text header ++ concat (map row_text rows)) ->
  fits header -> Forall fits rows ->
  ImageIterator.read_column fs file
  = Ok (map (fun row => as_read (fst row)) rows).
Proof.
  intros Hfile [La Lr] Hrows. unfold ImageIterator.read_column.
  rewrite Hfile. cbn [bind]. unfold io.lines_r.
  rewrite (translate_any_row header _), (read_record _ _ _ La Lr). cbn [bind].
  apply (column0_any_rows rows Hrows).
Qed.

End ReadBack.

Module Overflow.
Import csv ReadBack.

Lemma add_char_full (fs : list str) (st : ParserState) (buf : str) (c : ascii) :
  (field_limit <= Z.of_nat (length buf))%Z ->
  parse_add_char (buffered fs st buf) c = Raise csv_Error.
Proof.
  intros H. unfold parse_add_char, buffered. cbn [field_len].
  replace (field_limit <=? Z.of_nat (length buf))%Z with true
    by (symmetry; apply Z.leb_le; exact H).
  reflexivity.
Qed.

(** The body of a quoted field that does not fit in the buffer. *)
Lemma quoted_overflow (x : str) :
  forall fs buf rest,
    rest <> [] ->
    (Z.of_nat (length buf) <= field_limit)%Z ->
    (field_limit < Z.of_nat (length buf + length x))%Z ->
    Reader_loop (buffered fs IN_QUOTED_FIELD buf) (io.readlines (copy_field x ++ rest))
    = Raise csv_Error.
Proof.
  induction x as [|c x IH]; intros fs buf rest Hrest Hbuf Hlen.
  - simpl in Hlen. lia.
  - assert (Hne : copy_field x ++ rest <> [])
      by (intros E; apply app_eq_nil in E; destruct E; contradiction).
    assert (Hnext : (Z.of_nat (length buf) < field_limit)%Z ->
                    (Z.of_nat (length (c :: buf)) <= field_limit)%Z /\
                    (field_limit < Z.of_nat (length (c :: buf) + length x))%Z)
      by (simpl in *; lia).
    cbn [copy_field]. destruct (Ascii.eqb c quotechar) eqn:Hq.
    + apply Ascii.eqb_eq in Hq. subst c. cbn [app].
      rewrite Reader_char; [|reflexivity|discriminate].
      change (parse_process_char (buffered fs IN_QUOTED_FIELD buf) (Ch quotechar))
        with (Ok (buffered fs QUOTE_IN_QUOTED_FIELD buf)).
      cbn [bind]. rewrite Reader_char; [|reflexivity|exact Hne].
      unfold parse_process_char. cbn [state buffered]. rewrite Ascii.eqb_refl.
      fold (buffered fs QUOTE_IN_QUOTED_FIELD buf).
      destruct (Z.ltb_spec (Z.of_nat (length buf)) field_limit) as [Hlt|Hge].
      * rewrite (add_char_ok fs QUOTE_IN_QUOTED_FIELD buf quotechar Hlt).
        cbn [bind]. destruct (Hnext Hlt) as [H1 H2].
        apply (IH fs (quotechar :: buf) rest Hrest H1 H2).
      * rewrite (add_char_full fs QUOTE_IN_QUOTED_FIELD buf quotechar Hge).
        reflexivity.
    + cbn [app]. destruct (Ascii.eqb c io.LF) eqn:Hl.
      * apply Ascii.eqb_eq in Hl. subst c. rewrite Reader_LF.
        unfold parse_process_char at 1. cbn [state buffered]. rewrite Hq.
        fold (buffered fs IN_QUOTED_FIELD buf).
        destruct (Z.ltb_spec (Z.of_nat (length buf)) field_limit) as [Hlt|Hge].
        -- rewrite (add_char_ok fs IN_QUOTED_FIELD buf io.LF Hlt).
           cbn [bind]. destruct (Hnext Hlt) as [H1 H2].
           apply (IH fs (io.LF :: buf) rest Hrest H1 H2).
        -- rewrite (add_char_full fs IN_QUOTED_FIELD buf io.LF Hge). reflexivity.
      * rewrite Reader_char; [|exact Hl|exact Hne].
        unfold parse_process_char. cbn [state buffered]. rewrite Hq.
        fold (buffered fs IN_QUOTED_FIELD buf).
        destruct (Z.ltb_spec (Z.of_nat (length buf)) field_limit) as [Hlt|Hge].
        -- rewrite (add_char_ok fs IN_QUOTED_FIELD buf c Hlt).
           cbn [bind]. destruct (Hnext Hlt) as [H1 H2].
           apply (IH fs (c :: buf) rest Hrest H1 H2).
        -- rewrite (add_char_full fs IN_QUOTED_FIELD buf c Hge). reflexivity.
Qed.

(** The rest of an unquoted field that does not fit in the buffer. *)
Lemma plain_overflow (x : str) :
  forall fs buf rest,
    rest <> [] ->
    existsb special x = false ->
    (Z.of_nat (length buf) <= field_limit)%Z ->
    (field_limit < Z.of_nat (length buf + length x))%Z ->
    Reader_loop (buffered fs IN_FIELD buf) (io.readlines (x ++ rest))
    = Raise csv_Error.
Proof.
  induction x as [|c x IH]; intros fs buf rest Hrest Hsp Hbuf Hlen.
  - simpl in Hlen. lia.
  - cbn [existsb] in Hsp. apply orb_false_iff in Hsp. destruct Hsp as [Hc Hx].
    destruct (special_false c Hc) as [Hd [Hq [Hn [Hl _]]]].
    assert (Hne : x ++ rest <> [])
      by (intros E; apply app_eq_nil in E; destruct E; contradiction).
    cbn [app]. rewrite Reader_char; [|exact Hl|exact Hne].
    unfold parse_process_char. cbn [state buffered]. rewrite Hn, Hd.
    fold (buffered fs IN_FIELD buf).
    destruct (Z.ltb_spec (Z.of_nat (length buf)) field_limit) as [Hlt|Hge].
    + rewrite (add_char_ok fs IN_FIELD buf c Hlt). cbn [bind].
      apply (IH fs (c :: buf) rest Hrest Hx); simpl in *; lia.
    + rewrite (add_char_full fs IN_FIELD buf c Hge). reflexivity.
Qed.

(** A whole field that is too long, from the state that expects one. *)
Lemma field_overflow (x : str) (fs : list str) (rest : str) :
  rest <> [] -> too_long x ->
  Reader_loop (buffered fs START_FIELD []) (io.readlines (field_text x ++ rest))
  = Raise csv_Error.
Proof.
  intros Hrest Hlong. unfold too_long in Hlong. unfold field_text.
  destruct (existsb special x) eqn:Hsp.
  - rewrite <- !app_assoc. cbn [app].
    rewrite Reader_char; [|reflexivity|].
    2:{ intros E. apply app_eq_nil in E. destruct E as [_ E]. discriminate. }
    change (parse_process_char (buffered fs START_FIELD []) (Ch quotechar))
      with (Ok (buffered fs IN_QUOTED_FIELD [])).
    cbn [bind]. apply quoted_overflow; [discriminate| |exact Hlong].
    unfold field_limit. simpl. lia.
  - destruct x as [|c x]; [unfold field_limit in Hlong; simpl in Hlong; lia|].
    cbn [existsb] in Hsp. apply orb_false_iff in Hsp. destruct Hsp as [Hc Hx].
    destruct (special_false c Hc) as [Hd [Hq [Hn [Hl _]]]].
    cbn [app]. rewrite Reader_char; [|exact Hl|].
    2:{ intros E. apply app_eq_nil in E. destruct E; contradiction. }
    unfold parse_process_char. cbn [state buffered]. unfold in_START_FIELD.
    rewrite Hn, Hq, Hd. fold (buffered fs START_FIELD []).
    rewrite (add_char_ok fs START_FIELD [] c) by (simpl; unfold field_limit; lia).
    cbn [bind].
    change (set_state (buffered fs START_FIELD [c]) IN_FIELD)
      with (buffered fs IN_FIELD [c]).
    apply plain_overflow; [exact Hrest|exact Hx| |].
    + unfold field_limit. simpl. lia.
    + simpl in *. lia.
Qed.

(** At the start of a record whose first character is no newline the parser
    goes on as if it expected a field. *)
Lemma record_start (a rest : str) :
  Reader_loop (buffered [] START_RECORD [])
    (io.readlines (field_text a ++ delimiter :: rest))
  = Reader_loop (buffered [] START_FIELD [])
    (io.readlines (field_text a ++ delimiter :: rest)).
Proof.
  destruct (field_text_head a rest delimiter eq_refl) as [d [t [E Hd]]].
  rewrite E. cbn [io.readlines].
  assert (Hl : Ascii.eqb d io.LF = false).
  { unfold is_newline in Hd. apply orb_false_iff in Hd. apply Hd. }
  rewrite Hl.
  assert (Hfirst : parse_process_char (buffered [] START_RECORD []) (Ch d)
                   = parse_process_char (buffered [] START_FIELD []) (Ch d)).
  { unfold parse_process_char. cbn [state buffered]. rewrite Hd. reflexivity. }
  destruct (io.readlines t); cbn [Reader_loop process_line]; rewrite Hfirst;
    reflexivity.
Qed.

(** A record one field of which is too long. *)
Lemma record_overflow (a r : str) (rest : str) :
  too_long a \/ too_long r ->
  Reader_iternext
    (io.readlines (field_text a ++ [delimiter] ++ field_text r ++ [io.LF] ++ rest))
  = Raise csv_Error.
Proof.
  intros H. unfold Reader_iternext.
  change parse_reset with (buffered [] START_RECORD []).
  cbn [app]. rewrite record_start.
  destruct (Z.ltb_spec field_limit (Z.of_nat (length a))) as [Ha|Ha].
  - apply field_overflow; [discriminate | exact Ha].
  - destruct H as [H|Hr]; [unfold too_long in H; lia|].
    destruct (read_field a [] (delimiter :: field_text r ++ io.LF :: rest))
      as [s1 [Hd1 E1]]; [discriminate|exact Ha|].
    rewrite E1. rewrite Reader_char; [|reflexivity|].
    2:{ intros E. apply app_eq_nil in E. destruct E as [_ E]. discriminate. }
    rewrite (after_field_delimiter s1 [] a Hd1). cbn [bind].
    change ([] ++ [a]) with [a].
    apply field_overflow; [discriminate | exact Hr].
Qed.

Lemma fits_or_overflows (row : str * str) : fits row \/ overflows row.
Proof.
  unfold fits, overflows, within_limit, too_long.
  destruct (Z.ltb_spec field_limit (Z.of_nat (length (as_read (fst row)))));
    destruct (Z.ltb_spec field_limit (Z.of_nat (length (as_read (snd row)))));
    auto.
Qed.

(** The list comprehension over rows one of which overflows. *)
Lemma column0_overflow (rows : list (str * str)) :
  Exists overflows rows ->
  column0 (io.lines_r (concat (map row_text rows))) = Raise csv_Error.
Proof.
  induction rows as [|row rows IH]; intros H; [inversion H|].
  rewrite column0_equation. unfold io.lines_r. cbn [map concat].
  rewrite (translate_any_row row _).
  destruct (fits_or_overflows row) as [[La Lr]|Hover].
  - rewrite (read_record _ _ _ La Lr).
    change (getitem [as_read (fst row); as_read (snd row)] 0)
      with (Ok (as_read (fst row))).
    fold (io.lines_r (concat (map row_text rows))).
    rewrite IH; [reflexivity|].
    inversion H as [x l Hx|x l Hl]; subst; [|exact Hl].
    exfalso. unfold within_limit in La, Lr. unfold overflows, too_long in Hx. lia.
  - rewrite (record_overflow _ _ _ Hover). reflexivity.
Qed.

End Overflow.

Import ReadBack Overflow.

Lemma written_rows_fit (cwd file : str) (paths : list str) (rows : list (str * str)) :
  Forall2 (written_row cwd file) paths rows ->
  Forall (path_fits cwd file) paths ->
  Forall fits rows.
Proof.
  induction 1 as [|p row paths rows [Ha Hr] Hrest IH]; intros Hall; [constructor|].
  inversion Hall as [|x l [La Lr] Hall']; subst.
  constructor; [|apply IH; exact Hall'].
  split; [rewrite Ha; exact La | apply Lr; exact Hr].
Qed.

Lemma written_rows_overflow (cwd file : str) (paths : list str)
    (rows : list (str * str)) :
  Forall2 (written_row cwd file) paths rows ->
  Exists (path_overflows cwd file) paths ->
  Exists overflows rows.
Proof.
  induction 1 as [|p row paths rows [Ha Hr] Hrest IH]; intros Hex;
    inversion Hex as [x l Hx|x l Hl]; subst.
  - apply Exists_cons_hd. destruct Hx as [Hx|[rel [Hrel Hx]]].
    + left. rewrite Ha. exact Hx.
    + right. rewrite Hr in Hrel. inversion Hrel; subst. exact Hx.
  - apply Exists_cons_tl. apply IH. exact Hl.
Qed.

(** X1.  When [save_annotations] has written the paths and every written
    field, as a text-mode file gives it, is within the reader's field limit,
    a fresh [ImageIterator] over the manifest loads, in order, the absolute
    paths with every CR LF and every other CR replaced by LF: the writer
    opens the file with [newline=''], the reader does not. *)
Theorem read_back_translates_newlines (cwd : str) (fs fs' : filesystem)
    (image_paths : list str) (annotation_file : str) :
  save_annotations cwd fs image_paths annotation_file = (fs', Ok tt) ->
  Forall (path_fits cwd annotation_file) image_paths ->
  __init__ fs' annotation_file
  = Ok {| ImageIterator.annotation_file := annotation_file;
          ImageIterator.image_paths :=
            map (fun p => as_read (posixpath.abspath cwd p)) image_paths;
          current_index := 0 |}.
Proof.
  intros Hsave Hall.
  destruct (save_annotations_read cwd fs fs' image_paths annotation_file Hsave)
    as [rows [Hrows Hfs]].
  apply init_loaded.
  rewrite (load_any_rows fs' annotation_file
             (lit "absolute_path", lit "relative_path") rows).
  - f_equal.
    clear Hfs Hsave Hall. induction Hrows as [|p row paths rows [Ha _] _ IH];
      [reflexivity|].
    cbn [map]. rewrite Ha, IH. reflexivity.
  - exact Hfs.
  - unfold fits, within_limit, field_limit. simpl. lia.
  - apply (written_rows_fit cwd annotation_file image_paths rows Hrows Hall).
Qed.

Lemma read_back_translates_newlines_witness :
  __init__ (fst (save_annotations (lit "/w") empty_fs [path_with_CR]
                                  (lit "manifest.csv")))
           (lit "manifest.csv")
  = Ok {| ImageIterator.annotation_file := lit "manifest.csv";
          ImageIterator.image_paths :=
            [lit "/w/x" ++ [io.LF] ++ lit "y" ++ [io.LF] ++ lit "z.png"];
          current_index := 0 |}.
Proof.
  apply (read_back_translates_newlines (lit "/w") empty_fs _ [path_with_CR]
           (lit "manifest.csv")).
  - vm_compute. reflexivity.
  - repeat constructor; try (vm_compute; discriminate);
      intros rel H; vm_compute in H; inversion H; vm_compute; discriminate.
Defined.

(** X2.  When [save_annotations] has written the paths and, for one of
    them, the absolute or the relative path written is, as read, longer than
    the reader's field limit of 131072 characters, constructing the iterator
    over the manifest raises [csv.Error]: no iterator is returned. *)
Theorem long_path_raises_csv_Error (cwd : str) (fs fs' : filesystem)
    (image_paths : list str) (annotation_file : str) :
  save_annotations cwd fs image_paths annotation_file = (fs', Ok tt) ->
  Exists (path_overflows cwd annotation_file) image_paths ->
  __init__ fs' annotation_file = Raise csv_Error.
Proof.
  intros Hsave Hex.
  destruct (save_annotations_read cwd fs fs' image_paths annotation_file Hsave)
    as [rows [Hrows Hfs]].
  apply init_raises. rewrite (read_column_opened _ _ _ Hfs). unfold io.lines_r.
  change (csv.writerow manifest_header)
    with (row_text (lit "absolute_path", lit "relative_path")).
  rewrite translate_any_row.
  rewrite read_record; [|unfold within_limit, field_limit; simpl; lia
                        |unfold within_limit, field_limit; simpl; lia].
  cbn [bind]. fold (io.lines_r (concat (map row_text rows))).
  rewrite (column0_overflow rows
             (written_rows_overflow cwd annotation_file image_paths rows Hrows Hex)).
  reflexivity.
Qed.

Lemma long_path_raises_csv_Error_witness :
  __init__ (fst (save_annotations (lit "/w") empty_fs [lit "a.jpg"; long_name]
                                  (lit "manifest.csv")))
           (lit "manifest.csv")
  = Raise csv_Error.
Proof.
  apply (long_path_raises_csv_Error (lit "/w") empty_fs _ [lit "a.jpg"; long_name]
           (lit "manifest.csv")).
  - assert (H : snd (save_annotations (lit "/w") empty_fs [lit "a.jpg"; long_name]
                                      (lit "manifest.csv")) = Ok tt)
      by (vm_compute; reflexivity).
    destruct (save_annotations (lit "/w") empty_fs [lit "a.jpg"; long_name]
                               (lit "manifest.csv")) as [fs' r].
    cbn [fst snd] in *. rewrite H. reflexivity.
  - apply Exists_cons_tl. apply Exists_cons_hd. left. vm_compute. reflexivity.
Defined.

(** X3.  The header is skipped without being looked at.  Over a file
    that holds what a csv writer wrote for a first row of any two fields and
    then for rows of two fields, where every field, as a text-mode file
    gives it (every CR LF and every other CR as LF), is within the reader's
    field limit of 131072 characters, the constructor succeeds and loads the
    first field of each row after the first, as so read. *)
Theorem header_is_not_validated (fs : filesystem) (file : str)
    (header : str * str) (rows : list (str * str)) :
  io.open_r fs file = Ok (row_text header ++ concat (map row_text rows)) ->
  fits header -> Forall fits rows ->
  __init__ fs file
  = Ok {| ImageIterator.annotation_file := file;
          ImageIterator.image_paths := map (fun row => as_read (fst row)) rows;
          current_index := 0 |}.
Proof.
  intros Hfile Hh Hrows. apply init_loaded.
  apply (load_any_rows fs file header rows Hfile Hh Hrows).
Qed.

Lemma header_is_not_validated_witness :
  __init__ (one_file (lit "m.csv")
              (row_text (lit "no", lit "header")
               ++ concat (map row_text [(lit "/w/a.jpg", lit "a.jpg")])))
           (lit "m.csv")
  = Ok {| ImageIterator.annotation_file := lit "m.csv";
          ImageIterator.image_paths := [lit "/w/a.jpg"];
          current_index := 0 |}.
Proof.
  apply (header_is_not_validated (one_file (lit "m.csv") _) (lit "m.csv")
           (lit "no", lit "header") [(lit "/w/a.jpg", lit "a.jpg")]).
  - reflexivity.
  - unfold fits, within_limit, field_limit. simpl. lia.
  - repeat constructor; unfold within_limit, field_limit; simpl; lia.
Defined.

(** ** What [save_annotations] writes and leaves *)

Import NormFacts.

Module EncodeFacts.
Import csv.

Lemma encodes_forall (fs : filesystem) (x : str) :
  encodes fs x <-> forall c, In c x -> io.can_encode fs c = true.
Proof. unfold encodes. apply forallb_forall. Qed.

Lemma not_encoded (fs : filesystem) (x : str) :
  forallb (io.can_encode fs) x = false ->
  exists c, In c x /\ io.can_encode fs c = false.
Proof.
  induction x as [|c x IH]; cbn [forallb]; [discriminate|].
  intros H. apply andb_false_iff in H. destruct H as [H|H].
  - exists c. split; [left; reflexivity | exact H].
  - destruct (IH H) as [d [Hin Hd]]. exists d. split; [right; exact Hin | exact Hd].
Qed.

Lemma holds_unencoded (fs : filesystem) (x : str) (c : ascii) :
  In c x -> io.can_encode fs c = false -> forallb (io.can_encode fs) x = false.
Proof.
  intros Hin Hc. destruct (forallb (io.can_encode fs) x) eqn:E; [|reflexivity].
  rewrite forallb_forall in E. rewrite (E c Hin) in Hc. discriminate.
Qed.

Lemma copy_field_chars (c : ascii) (x : str) : In c (copy_field x) <-> In c x.
Proof.
  induction x as [|d x IH]; cbn [copy_field]; [reflexivity|].
  destruct (Ascii.eqb d quotechar) eqn:E.
  - apply Ascii.eqb_eq in E. subst d. cbn [In]. rewrite IH. tauto.
  - cbn [In]. rewrite IH. reflexivity.
Qed.

Lemma field_text_chars (c : ascii) (x : str) :
  In c (field_text x) -> c = quotechar \/ In c x.
Proof.
  unfold field_text. destruct (existsb special x); [|auto].
  intros H. apply in_app_or in H. destruct H as [[H|[]]|H]; [auto|].
  apply in_app_or in H. destruct H as [H|[H|[]]]; [|auto].
  right. apply copy_field_chars. exact H.
Qed.

Lemma field_text_holds (c : ascii) (x : str) : In c x -> In c (field_text x).
Proof.
  intros H. unfold field_text. destruct (existsb special x); [|exact H].
  apply in_or_app. right. apply in_or_app. left. apply copy_field_chars. exact H.
Qed.

(** The row of a path can be encoded exactly when its absolute path can. *)
Lemma row_encodes (fs : filesystem) (cwd p start rel : str) :
  posixpath.relpath cwd p start = Ok rel ->
  encodes fs (posixpath.abspath cwd p) ->
  encodes fs (writerow [posixpath.abspath cwd p; rel]).
Proof.
  intros Hrel Ha. rewrite encodes_forall in *. intros c Hc.
  rewrite ReaderFacts.writerow_two in Hc.
  assert (Hq : forall x, In c (field_text x) ->
                         (forall d, In d x -> io.can_encode fs d = true) ->
                         io.can_encode fs c = true).
  { intros x Hx Hall. apply field_text_chars in Hx. destruct Hx as [E|Hx];
      [subst c; reflexivity | apply (Hall c Hx)]. }
  apply in_app_or in Hc. destruct Hc as [Hc|Hc]; [apply (Hq _ Hc Ha)|].
  apply in_app_or in Hc. destruct Hc as [[E|[]]|Hc]; [subst c; reflexivity|].
  apply in_app_or in Hc. destruct Hc as [Hc|Hc].
  - apply (Hq _ Hc). intros d Hd.
    destruct (PathChars.relpath_chars cwd p start rel d Hrel Hd) as [E|[E|Hin]];
      [subst d; reflexivity | subst d; reflexivity | apply (Ha d Hin)].
  - destruct Hc as [E|[E|[]]]; subst c; reflexivity.
Qed.

Lemma row_not_encoded (fs : filesystem) (a rel : str) :
  forallb (io.can_encode fs) a = false ->
  forallb (io.can_encode fs) (writerow [a; rel]) = false.
Proof.
  intros H. destruct (not_encoded fs a H) as [c [Hin Hc]].
  apply (holds_unencoded fs _ c); [|exact Hc].
  rewrite ReaderFacts.writerow_two. apply in_or_app. left.
  apply field_text_holds. exact Hin.
Qed.

(** The rows of paths that are written. *)
Lemma writable_rows (fs : filesystem) (cwd file : str) (paths : list str) :
  Forall (writable fs cwd) paths ->
  exists rows,
    Forall2 (written_row cwd file) paths rows /\
    Forall (fun row => encodes fs (row_text row)) rows.
Proof.
  induction 1 as [|p paths [Hp He] Hrest [rows [IH IHe]]].
  - exists []. split; constructor.
  - pose proof (relpath_total cwd p (posixpath.dirname file) Hp) as Hrel.
    exists ((posixpath.abspath cwd p,
             rel_text (rel_list cwd p (posixpath.dirname file))) :: rows).
    split; constructor; try assumption.
    + split; [reflexivity | exact Hrel].
    + apply (row_encodes fs cwd p _ _ Hrel He).
Qed.

(** The loop stops at the first path that is empty or cannot be encoded,
    with the rows of the paths before it written. *)
Lemma write_rows_stops (cwd : str) (fs : filesystem) (file : str)
    (before : list str) (rows : list (str * str)) :
  Forall2 (written_row cwd file) before rows ->
  Forall (fun row => encodes fs (row_text row)) rows ->
  forall p e after f,
    (p = [] /\ e = ValueError) \/ (unencodable fs cwd p /\ e = UnicodeEncodeError) ->
    write_rows cwd fs file (before ++ p :: after) f
    = (f ++ concat (map row_text rows), Raise e).
Proof.
  induction 1 as [|q row paths rows [Ha Hr] Hrest IH]; intros Henc p e after f Hp.
  - cbn [app map concat]. rewrite app_nil_r.
    destruct Hp as [[Hp He]|[[Hp Hu] He]]; subst e.
    + subst p. cbn [write_rows]. rewrite relpath_empty. reflexivity.
    + cbn [write_rows]. rewrite (relpath_total cwd p (posixpath.dirname file) Hp).
      unfold io.write. rewrite (row_not_encoded fs _ _ Hu). reflexivity.
  - inversion Henc as [|x l He Henc']; subst.
    cbn [app write_rows]. rewrite Hr, <- Ha. fold (row_text row).
    rewrite (ManifestFacts.write_encodes _ _ _ He).
    rewrite (IH Henc' p e after (f ++ row_text row) Hp).
    cbn [map concat]. rewrite <- !app_assoc. reflexivity.
Qed.

End EncodeFacts.

Import EncodeFacts.

(** X4.  When the manifest can be opened for writing, an empty path in the
    list, after paths that are written (none empty, each with an absolute
    path that can be encoded), makes [save_annotations] raise [ValueError]
    (from [os.path.relpath]); the manifest, closed by the [with] block,
    holds the header and the rows of the paths before the empty one, and
    nothing of the paths after it. *)
Theorem empty_path_raises_ValueError (cwd : str) (fs : filesystem)
    (before after : list str) (annotation_file : str) :
  io.open_w fs annotation_file = Ok tt ->
  Forall (writable fs cwd) before ->
  exists rows,
    Forall2 (written_row cwd annotation_file) before rows /\
    save_annotations cwd fs (before ++ [] :: after) annotation_file
    = (io.close_w fs annotation_file (manifest_format csv.lineterminator rows),
       Raise ValueError).
Proof.
  intros Hopen Hbefore.
  destruct (writable_rows fs cwd annotation_file before Hbefore)
    as [rows [Hrows Henc]].
  exists rows. split; [exact Hrows|].
  unfold save_annotations. rewrite Hopen, write_header. cbn [app].
  rewrite (write_rows_stops cwd fs annotation_file before rows Hrows Henc
             [] ValueError after) by (left; split; reflexivity).
  rewrite rows_as_format. reflexivity.
Qed.

Lemma empty_path_raises_ValueError_witness :
  exists rows,
    Forall2 (written_row (lit "/w") (lit "manifest.csv")) [lit "a.jpg"] rows /\
    save_annotations (lit "/w") empty_fs ([lit "a.jpg"] ++ [] :: [lit "b.png"])
                     (lit "manifest.csv")
    = (io.close_w empty_fs (lit "manifest.csv")
         (manifest_format csv.lineterminator rows),
       Raise ValueError).
Proof.
  apply (empty_path_raises_ValueError (lit "/w") empty_fs [lit "a.jpg"]
           [lit "b.png"] (lit "manifest.csv")).
  - reflexivity.
  - repeat constructor. discriminate.
Defined.

(** X12.  When the manifest can be opened for writing, a path whose absolute
    path holds a character the encoding of the file cannot encode, after
    paths that are written, makes [save_annotations] raise
    [UnicodeEncodeError] (from [writer.writerow]); the manifest, closed by
    the [with] block, is left short: it holds the header and the rows of the
    paths before that one, nothing of that path and nothing of the paths
    after it. *)
Theorem unencodable_path_raises_UnicodeEncodeError (cwd : str) (fs : filesystem)
    (before : list str) (p : str) (after : list str) (annotation_file : str) :
  io.open_w fs annotation_file = Ok tt ->
  Forall (writable fs cwd) before ->
  unencodable fs cwd p ->
  exists rows,
    Forall2 (written_row cwd annotation_file) before rows /\
    save_annotations cwd fs (before ++ p :: after) annotation_file
    = (io.close_w fs annotation_file (manifest_format csv.lineterminator rows),
       Raise UnicodeEncodeError).
Proof.
  intros Hopen Hbefore Hp.
  destruct (writable_rows fs cwd annotation_file before Hbefore)
    as [rows [Hrows Henc]].
  exists rows. split; [exact Hrows|].
  unfold save_annotations. rewrite Hopen, write_header. cbn [app].
  rewrite (write_rows_stops cwd fs annotation_file before rows Hrows Henc
             p UnicodeEncodeError after) by (right; split; [exact Hp | reflexivity]).
  rewrite rows_as_format. reflexivity.
Qed.

Lemma unencodable_path_raises_UnicodeEncodeError_witness :
  exists rows,
    Forall2 (written_row (lit "/w") (lit "manifest.csv")) [lit "a.jpg"] rows /\
    save_annotations (lit "/w") ascii_fs
                     ([lit "a.jpg"] ++ name_beyond_ascii :: [lit "c.png"])
                     (lit "manifest.csv")
    = (io.close_w ascii_fs (lit "manifest.csv")
         (manifest_format csv.lineterminator rows),
       Raise UnicodeEncodeError).
Proof.
  apply (unencodable_path_raises_UnicodeEncodeError (lit "/w") ascii_fs
           [lit "a.jpg"] name_beyond_ascii [lit "c.png"] (lit "manifest.csv")).
  - reflexivity.
  - repeat constructor. discriminate.
  - split; [discriminate | reflexivity].
Defined.

Lemma fold_step_nonempty (l : list str) :
  forall N,
    fold_left step (filter (fun x => negb (Str.eqb x [])) l) N = fold_left step l N.
Proof.
  induction l as [|c l IH]; intros N; [reflexivity|].
  cbn [filter fold_left]. destruct (Str.eqb c []) eqn:E; cbn [negb].
  - apply eqb_str_eq in E. subst c. rewrite step_empty. apply IH.
  - cbn [fold_left]. apply IH.
Qed.

(** An absolute path made by [abspath] is left as it is by [abspath]. *)
Lemma abspath_normal (cwd p : str) :
  posixpath.isabs cwd = true -> normal_absolute (posixpath.abspath cwd p).
Proof.
  intros Hc. pose proof (full_isabs cwd p Hc) as HF.
  assert (HA : posixpath.isabs (posixpath.abspath cwd p) = true).
  { rewrite abspath_full, (normpath_abs _ HF).
    destruct (initial_slashes_abs _ HF) as [E|E]; rewrite E; reflexivity. }
  split; [exact HA|]. intros cwd'.
  unfold posixpath.abspath at 1. rewrite HA.
  rewrite (normpath_abs _ HA).
  rewrite abspath_full at 1. rewrite (initial_slashes_normpath _ HF).
  assert (Hcomps : comps_of (posixpath.abspath cwd p) = comps_of (full cwd p)).
  { unfold comps_of at 1. rewrite <- fold_step_nonempty.
    change (filter (fun x => negb (Str.eqb x []))
              (Str.split posixpath.sep (posixpath.abspath cwd p)))
      with (posixpath.nonempty_comps (posixpath.abspath cwd p)).
    rewrite (nonempty_comps_abspath cwd p HF).
    apply (fold_clean_comps _ (comps_of_clean (full cwd p)) []). }
  rewrite Hcomps, abspath_full. symmetry. apply (normpath_abs _ HF).
Qed.

Lemma written_row_columns (cwd file p : str) (row : str * str) :
  posixpath.isabs cwd = true ->
  written_row cwd file p row ->
  normal_absolute (fst row) /\ relative (snd row).
Proof.
  intros Hc [Ha Hr]. split.
  - rewrite Ha. apply abspath_normal. exact Hc.
  - assert (Hp : p <> []).
    { intros E. subst p. rewrite relpath_empty in Hr. discriminate. }
    rewrite (relpath_total cwd p (posixpath.dirname file) Hp) in Hr.
    inversion Hr as [Hrel].
    destruct (rel_text_join _ (rel_list_nice cwd p (posixpath.dirname file) Hc))
      as [Hne [Habs _]].
    split; assumption.
Qed.

(** X6.  With an absolute working directory, in every row that
    [save_annotations] writes the first field is an absolute path in normal
    form ([abspath] in any working directory leaves it as it is) and the
    second is a relative one (not empty, not beginning with a slash). *)
Theorem written_columns_are_normal (cwd : str) (fs fs' : filesystem)
    (image_paths : list str) (annotation_file : str) :
  posixpath.isabs cwd = true ->
  save_annotations cwd fs image_paths annotation_file = (fs', Ok tt) ->
  exists rows,
    io.open_r fs' annotation_file = Ok (manifest_format csv.lineterminator rows) /\
    length rows = length image_paths /\
    Forall (fun row => normal_absolute (fst row) /\ relative (snd row)) rows.
Proof.
  intros Hc Hsave.
  destruct (save_annotations_read cwd fs fs' image_paths annotation_file Hsave)
    as [rows [Hrows Hfs]].
  exists rows. split; [|split].
  - rewrite Hfs, rows_as_format. reflexivity.
  - symmetry. apply (Forall2_length Hrows).
  - clear Hfs Hsave. induction Hrows as [|p row paths rows Hrow _ IH];
      constructor; [|exact IH].
    apply (written_row_columns cwd annotation_file p row Hc Hrow).
Qed.

Lemma written_columns_are_normal_witness :
  exists rows,
    io.open_r (fst (save_annotations (lit "/w") empty_fs sample_paths
                                     (lit "out/manifest.csv")))
              (lit "out/manifest.csv")
    = Ok (manifest_format csv.lineterminator rows) /\
    length rows = 2%nat /\
    Forall (fun row => normal_absolute (fst row) /\ relative (snd row)) rows.
Proof.
  apply (written_columns_are_normal (lit "/w") empty_fs _ sample_paths
           (lit "out/manifest.csv")).
  - reflexivity.
  - vm_compute. reflexivity.
Defined.

(** ** What [download_images] returns *)

Module WalkFacts.

Lemma download_images_collect crawl folder keyword download_folder num_images :
  download_images crawl folder keyword download_folder num_images
  = collect (os._walk download_folder
               (Dir (crawl download_folder keyword num_images folder))).
Proof. reflexivity. Qed.

Lemma collect_app (a b : list (str * list str * list str)) :
  collect (a ++ b) = collect a ++ collect b.
Proof. unfold collect. apply flat_map_app. Qed.

Lemma collected_from (top : str) (children : list (str * entry)) (p : str) :
  In p (collect (os._walk top (Dir children))) ->
  exists dirpath name,
    file_at top children dirpath name /\
    Str.endswith_any name image_suffixes = true /\
    p = posixpath.join dirpath [name].
Proof.
  unfold collect. rewrite in_flat_map.
  intros [[[d ds] fs] [Hw Hp]]. apply in_map_iff in Hp.
  destruct Hp as [name [Hp Hname]]. apply filter_In in Hname.
  destruct Hname as [Hname Hs]. exists d, name. split; [|split].
  - apply (walk_spec _ top _ eq_refl). exists ds, fs. split; assumption.
  - exact Hs.
  - symmetry. exact Hp.
Qed.

Lemma join_step_suffix (path b : str) :
  exists pre, posixpath.join_step path b = pre ++ b.
Proof.
  unfold posixpath.join_step. destruct (Str.startswith b [posixpath.sep]).
  - exists []. reflexivity.
  - destruct (match path with [] => true | _ => Str.endswith path [posixpath.sep] end).
    + exists path. reflexivity.
    + exists (path ++ [posixpath.sep]). rewrite <- app_assoc. reflexivity.
Qed.



Lemma count_unfold (children : list (str * entry)) :
  count_images (Dir children)
  = list_sum
      (map (fun ne : str * entry =>
              match snd ne with
              | File => if Str.endswith_any (fst ne) image_suffixes then 1 else 0
              | _ => count_images (snd ne)
              end) children).
Proof.
  induction children as [|[n e] l IH]; [reflexivity|].
  change (list_sum (map ?g ((n, e) :: l)))
    with (g (n, e) + list_sum (map g l))%nat.
  rewrite <- IH. reflexivity.
Qed.

Lemma collect_count (e : entry) :
  forall top, length (collect (os._walk top e)) = count_images e.
Proof.
  induction e as [| |ch IH] using entry_nested_ind; intros top; try reflexivity.
  rewrite walk_unfold, count_unfold.
  change ((top, os.dirs ch, os.nondirs ch) :: flat_map (walk_into top) ch)
    with ([(top, os.dirs ch, os.nondirs ch)] ++ flat_map (walk_into top) ch).
  rewrite collect_app, length_app.
  unfold collect at 1. cbn [flat_map]. rewrite app_nil_r, length_map.
  induction ch as [|[n sub] l IHl]; [reflexivity|].
  inversion IH as [|x l' Hsub Hrest]; subst.
  cbn [flat_map map fst snd]. rewrite collect_app, length_app.
  change (list_sum (?a :: ?b)) with (a + list_sum b)%nat.
  specialize (IHl Hrest).
  unfold os.nondirs in *. cbn [filter snd].
  destruct sub as [| |sub]; cbn [os.is_dir negb map fst filter].
  - unfold walk_into at 1. cbn [snd collect flat_map length].
    destruct (Str.endswith_any n image_suffixes); cbn [length]; lia.
  - unfold walk_into at 1. cbn [snd collect flat_map length count_images]. lia.
  - unfold walk_into at 1. cbn [snd fst].
    cbn [snd] in Hsub. rewrite (Hsub (posixpath.join top [n])). lia.
Qed.

End WalkFacts.

Import WalkFacts.

(** X7.  Every path [download_images] returns ends in [.jpg], [.jpeg] or
    [.png], written so. *)
Theorem returned_paths_have_image_suffix crawl folder keyword download_folder
    num_images (p : str) :
  In p (download_images crawl folder keyword download_folder num_images) ->
  exists stem,
    p = stem ++ lit ".jpg" \/ p = stem ++ lit ".jpeg" \/ p = stem ++ lit ".png".
Proof.
  rewrite download_images_collect. intros H.
  destruct (collected_from _ _ p H) as [d [name [_ [Hs Hp]]]].
  destruct (join_step_suffix d name) as [pre Hpre].
  change (posixpath.join d [name]) with (posixpath.join_step d name) in Hp.
  rewrite Hpre in Hp. subst p.
  unfold Str.endswith_any, image_suffixes in Hs. cbn [existsb] in Hs.
  rewrite !orb_true_iff, !endswith_spec in Hs.
  destruct Hs as [[s H']|[[s H']|[[s H']|H']]]; try discriminate;
    exists (pre ++ s); rewrite H', app_assoc; auto.
Qed.

Lemma returned_paths_have_image_suffix_witness :
  exists stem,
    lit "download/cat/more/c.jpeg" = stem ++ lit ".jpg"
    \/ lit "download/cat/more/c.jpeg" = stem ++ lit ".jpeg"
    \/ lit "download/cat/more/c.jpeg" = stem ++ lit ".png".
Proof.
  apply (returned_paths_have_image_suffix no_crawl nested_folder (lit "cat")
           (lit "download") 100).
  vm_compute. auto.
Defined.

(** ** No path twice *)

Module NoRepeat.
Import posixpath.

Lemma nice_name_spec (name : str) : nice_name name = true -> nice name.
Proof.
  unfold nice_name. rewrite andb_true_iff, !negb_true_iff. intros [Hne Hs]. split.
  - intros E. subst name. discriminate Hne.
  - apply ManifestFacts.contains_false_iff. exact Hs.
Qed.

Lemma distinct_spec (names : list str) : distinct names = true -> NoDup names.
Proof.
  induction names as [|n l IH]; cbn [distinct]; [constructor|].
  rewrite andb_true_iff, negb_true_iff. intros [Hn Hl].
  constructor; [|apply IH; exact Hl].
  intros Hin. assert (E : existsb (Str.eqb n) l = true).
  { apply existsb_exists. exists n. split; [exact Hin | apply ManifestFacts.eqb_str_refl]. }
  congruence.
Qed.

Lemma well_named_dir (children : list (str * entry)) :
  well_named (Dir children) = true ->
  Forall (fun ne => nice (fst ne)) children /\
  NoDup (map fst children) /\
  Forall (fun ne => well_named (snd ne) = true) children.
Proof.
  cbn [well_named]. rewrite !andb_true_iff. intros [[Hn Hd] Hall]. split; [|split].
  - apply Forall_forall. intros ne Hin. apply nice_name_spec.
    rewrite forallb_forall in Hn. apply (Hn ne Hin).
  - apply distinct_spec. exact Hd.
  - clear Hn Hd. induction children as [|[n sub] l IH]; [constructor|].
    apply andb_true_iff in Hall. destruct Hall as [Hsub Hl].
    constructor; [exact Hsub | apply IH; exact Hl].
Qed.

Lemma tail_sep_nice (name : str) : nice name -> tail_sep name = false.
Proof.
  intros [Hne Hs]. unfold tail_sep. destruct name as [|c name]; [contradiction|].
  destruct (Str.endswith (c :: name) [sep]) eqn:E; [|reflexivity].
  apply endswith_spec in E. destruct E as [stem E]. exfalso. apply Hs.
  rewrite E. apply in_or_app. right. left. reflexivity.
Qed.

Lemma join_name (top name : str) :
  nice name -> join top [name] = dir_prefix top ++ name.
Proof.
  intros Hn. change (join top [name]) with (join_step top name).
  rewrite (join_step_rel top name (nice_not_abs name Hn)). unfold dir_prefix.
  destruct (tail_sep top); [reflexivity | rewrite <- app_assoc; reflexivity].
Qed.

Lemma dir_prefix_join (top name : str) :
  nice name -> dir_prefix (join top [name]) = dir_prefix top ++ name ++ [sep].
Proof.
  intros Hn. rewrite (join_name top name Hn). unfold dir_prefix at 1.
  rewrite (tail_sep_app _ name (proj1 Hn)), (tail_sep_nice name Hn).
  rewrite <- app_assoc. reflexivity.
Qed.

(** Two texts that agree up to a first slash have the same part before it. *)
Lemma before_sep (a b r1 r2 : str) :
  ~ In sep a -> ~ In sep b -> a ++ sep :: r1 = b ++ sep :: r2 -> a = b.
Proof.
  revert b. induction a as [|x a IH]; intros [|y b] Ha Hb E; cbn [app] in E.
  - reflexivity.
  - inversion E; subst y. exfalso. apply Hb. left. reflexivity.
  - inversion E; subst x. exfalso. apply Ha. left. reflexivity.
  - inversion E; subst y. f_equal. apply (IH b); [| |assumption].
    + intros H. apply Ha. right. exact H.
    + intros H. apply Hb. right. exact H.
Qed.

Lemma NoDup_map_on {A B : Type} (f : A -> B) (l : list A) :
  NoDup l ->
  (forall x y, In x l -> In y l -> f x = f y -> x = y) ->
  NoDup (map f l).
Proof.
  induction 1 as [|x l Hx Hl IH]; intros Hinj; cbn [map]; constructor.
  - intros Hin. apply in_map_iff in Hin. destruct Hin as [y [E Hy]].
    apply Hx. rewrite (Hinj x y (or_introl eq_refl) (or_intror Hy) (eq_sym E)).
    exact Hy.
  - apply IH. intros a b Ha Hb. apply Hinj; right; assumption.
Qed.

Lemma NoDup_names_filter (f : str * entry -> bool) (children : list (str * entry)) :
  NoDup (map fst children) -> NoDup (map fst (filter f children)).
Proof.
  induction children as [|ne l IH]; intros H; [constructor|].
  inversion H as [|x l' Hx Hl]; subst. cbn [filter].
  destruct (f ne); [|apply IH; exact Hl].
  cbn [map]. constructor; [|apply IH; exact Hl].
  intros Hin. apply Hx. apply in_map_iff in Hin. destruct Hin as [y [E Hy]].
  apply filter_In in Hy. apply in_map_iff. exists y. split; [exact E | apply Hy].
Qed.

(** The image files of the directory itself. *)
Lemma files_distinct (top : str) (children : list (str * entry)) :
  Forall (fun ne => nice (fst ne)) children ->
  NoDup (map fst children) ->
  NoDup (map (fun filename => join top [filename])
             (filter (fun filename => Str.endswith_any filename image_suffixes)
                     (os.nondirs children))) /\
  (forall p,
      In p (map (fun filename => join top [filename])
                (filter (fun filename => Str.endswith_any filename image_suffixes)
                        (os.nondirs children))) ->
      exists name, nice name /\ p = dir_prefix top ++ name).
Proof.
  intros Hnice Hd.
  assert (Hn : forall name,
             In name (filter (fun filename => Str.endswith_any filename image_suffixes)
                             (os.nondirs children)) -> nice name).
  { intros name Hin. apply filter_In in Hin. destruct Hin as [Hin _].
    unfold os.nondirs in Hin. apply in_map_iff in Hin.
    destruct Hin as [ne [E Hin]]. apply filter_In in Hin. subst name.
    rewrite Forall_forall in Hnice. apply Hnice. apply Hin. }
  split.
  - apply NoDup_map_on.
    + apply NoDup_filter. apply NoDup_names_filter. exact Hd.
    + intros x y Hx Hy E. rewrite (join_name top x (Hn x Hx)) in E.
      rewrite (join_name top y (Hn y Hy)) in E. apply (app_inv_head _ _ _ E).
  - intros p Hin. apply in_map_iff in Hin. destruct Hin as [name [E Hin]].
    exists name. split; [apply Hn; exact Hin|]. rewrite <- E.
    apply join_name. apply Hn. exact Hin.
Qed.

(** The paths collected below a directory whose names are as a file system
    has them: none twice, and each begins with what [join] puts before a
    name. *)
Lemma collect_walk_distinct (e : entry) :
  well_named e = true ->
  forall top,
    NoDup (collect (os._walk top e)) /\
    (forall p, In p (collect (os._walk top e)) -> exists r, p = dir_prefix top ++ r).
Proof.
  induction e as [| |ch IH] using entry_nested_ind; intros Hwn top;
    try (split; [constructor | intros p []]).
  destruct (well_named_dir ch Hwn) as [Hnice [Hd Hsubs]].
  rewrite walk_unfold.
  change ((top, os.dirs ch, os.nondirs ch) :: flat_map (walk_into top) ch)
    with ([(top, os.dirs ch, os.nondirs ch)] ++ flat_map (walk_into top) ch).
  rewrite collect_app. unfold collect at 1 3. cbn [flat_map]. rewrite !app_nil_r.
  destruct (files_distinct top ch Hnice Hd) as [HF HFp].
  assert (HS : NoDup (collect (flat_map (walk_into top) ch)) /\
               (forall p, In p (collect (flat_map (walk_into top) ch)) ->
                          exists name r, In name (map fst ch) /\ ~ In sep name /\
                                         p = dir_prefix top ++ name ++ sep :: r)).
  { clear HF HFp Hwn. induction ch as [|[n sub] l IHl]; [split; [constructor | intros p []]|].
    inversion IH as [|x l1 Hsub IHrest]; subst.
    inversion Hnice as [|x l2 Hn Hnice']; subst.
    inversion Hd as [|x l3 Hnl Hd']; subst.
    inversion Hsubs as [|x l4 Hw Hsubs']; subst.
    cbn [fst snd] in Hsub, Hn, Hw.
    destruct (IHl IHrest Hnice' Hd' Hsubs') as [Hrest Hrestp].
    cbn [flat_map map fst]. rewrite collect_app.
    assert (Hhere : NoDup (collect (walk_into top (n, sub))) /\
                    (forall p, In p (collect (walk_into top (n, sub))) ->
                               exists r, p = dir_prefix top ++ n ++ sep :: r)).
    { unfold walk_into. cbn [fst snd]. destruct sub as [| |sub];
        try (split; [constructor | intros p []]).
      destruct (Hsub Hw (join top [n])) as [H1 H2]. split; [exact H1|].
      intros p Hp. destruct (H2 p Hp) as [r Hr]. exists r.
      rewrite Hr, (dir_prefix_join top n Hn), <- !app_assoc. reflexivity. }
    destruct Hhere as [Hhere Hherep]. split.
    - apply NoDup_app; [exact Hhere | exact Hrest|].
      intros p Hp1 Hp2. destruct (Hherep p Hp1) as [r1 E1].
      destruct (Hrestp p Hp2) as [m [r2 [Hm [Hms E2]]]].
      rewrite E1 in E2. apply app_inv_head in E2.
      apply before_sep in E2; [|apply Hn | exact Hms].
      subst m. contradiction.
    - intros p Hp. apply in_app_or in Hp. destruct Hp as [Hp|Hp].
      + destruct (Hherep p Hp) as [r E]. exists n, r.
        split; [left; reflexivity|]. split; [apply Hn | exact E].
      + destruct (Hrestp p Hp) as [m [r [Hm [Hms E]]]]. exists m, r.
        split; [right; exact Hm|]. split; assumption. }
  destruct HS as [HS HSp]. split.
  - apply NoDup_app; [exact HF | exact HS|].
    intros p Hp1 Hp2. destruct (HFp p Hp1) as [name [[_ Hs] E1]].
    destruct (HSp p Hp2) as [m [r [_ [_ E2]]]].
    rewrite E1 in E2. apply app_inv_head in E2. apply Hs. rewrite E2.
    apply in_or_app. right. left. reflexivity.
  - intros p Hp. apply in_app_or in Hp. destruct Hp as [Hp|Hp].
    + destruct (HFp p Hp) as [name [_ E]]. exists name. exact E.
    + destruct (HSp p Hp) as [m [r [_ [_ E]]]]. exists (m ++ sep :: r). exact E.
Qed.

End NoRepeat.

(** X8.  Over a download folder of a name that is not empty where, as in a
    file system, no name is empty or holds a slash and no directory has two
    entries of the same name, [download_images] returns no path twice, and
    as many paths as there are non-directories with an image suffix in the
    download folder and the directories below it.  Directories and links to
    directories count for nothing, whatever their names. *)
Theorem returns_one_path_per_image crawl folder keyword download_folder num_images :
  download_folder <> [] ->
  well_named (Dir (crawl download_folder keyword num_images folder)) = true ->
  NoDup (download_images crawl folder keyword download_folder num_images) /\
  length (download_images crawl folder keyword download_folder num_images)
  = count_images (Dir (crawl download_folder keyword num_images folder)).
Proof.
  intros _ Hwn. rewrite download_images_collect. split.
  - apply (NoRepeat.collect_walk_distinct _ Hwn download_folder).
  - apply collect_count.
Qed.

Lemma returns_one_path_per_image_witness :
  NoDup (download_images no_crawl nested_folder (lit "cat") (lit "download") 100) /\
  length (download_images no_crawl nested_folder (lit "cat") (lit "download") 100)
  = 3%nat.
Proof.
  apply (returns_one_path_per_image no_crawl nested_folder (lit "cat")
           (lit "download") 100).
  - discriminate.
  - reflexivity.
Defined.





(** ** One pass only *)

(** X10.  The iterator cannot be run through twice: once a [for] loop over
    it has ended, a second [for] loop over the same object runs on nothing
    and leaves it as it is. *)
Theorem second_loop_yields_nothing (self : ImageIterator.t) :
  (0 <= current_index self)%Z ->
  for_loop (fst (snd (for_loop self)))
  = ([], (fst (snd (for_loop self)), Ok tt)).
Proof.
  intros H0. unfold for_loop, __iter__.
  rewrite (for_next_from _ self H0 eq_refl). cbn [fst snd].
  set (after := at_index self (Z.max (current_index self) (len self))).
  assert (Hafter : (0 <= current_index after)%Z) by (unfold after; simpl; lia).
  rewrite (for_next_from _ after Hafter eq_refl).
  assert (Hlen : len after = len self) by reflexivity.
  rewrite skipn_all2.
  - f_equal. f_equal. unfold after, at_index. cbn [current_index image_paths
      ImageIterator.annotation_file]. f_equal.
    fold (at_index self (Z.max (current_index self) (len self))). fold after.
    rewrite Hlen. lia.
  - unfold after, len. simpl. lia.
Qed.

Lemma second_loop_yields_nothing_witness :
  for_loop (fst (snd (for_loop two_paths_one_read)))
  = ([], (fst (snd (for_loop two_paths_one_read)), Ok tt)).
Proof. apply second_loop_yields_nothing. simpl. lia. Defined.

(** ** [main] *)




